(** * Annotated hierarchical A* (ahastar): a shallow embedding

    The development follows the C++ sources of the repository:
    - [aha/AnnotatedHierarchicalAStar.cpp]  (evaluate, getPath),
    - [trunk/aha/AnnotatedMapAbstraction.cpp] (annotateMap, addMissingEdges,
      pathable),
    - [tests/AnnotatedClusterAbstractionTest.cpp] (expected values of the
      cluster abstraction, whose implementation is not part of the sources).

    C [int]s are modelled as [Z], with the wrap-around of 32-bit
    arithmetic written out where the code adds or subtracts; comparisons
    and bitwise operations need none.  Pointers that may be null are
    [option]s. *)

From Stdlib Require Import ZArith Lia Reals Lra.
From stdpp Require Import base option list gmap.

Local Open Scope Z_scope.
#[local] Set Warnings "-clear-no-such-hyp".

(** ** 32-bit integers *)

Module Int.

Definition INT_MAX : Z := 2147483647.

(** The value of an [int] expression whose mathematical value is [z]. *)
Definition wrap (z : Z) : Z :=
  (z + 2147483648) mod 4294967296 - 2147483648.

Definition add (a b : Z) : Z := wrap (a + b).
Definition sub (a b : Z) : Z := wrap (a - b).

End Int.

(** ** Graph primitives shared by the search classes *)

Module Graph.

(** [node::getNum]: the id of a node inside its graph. *)
Record node := mkNode { getNum : Z }.

(** [edge]: endpoints are node ids. *)
Record edge := mkEdge { getFrom : Z; getTo : Z; edgeId : Z }.

End Graph.

(** ** AnnotatedHierarchicalAStar::evaluate *)

Module Evaluate.
Import Graph.

Section WithEdgeClearance.

(** [edge::getClearance(capability)] is declared in a header that is not
    part of the sources; it is a lookup in the edge's annotation. *)
Variable getClearance : edge -> Z -> Z.

(** The fields of the search object read by [evaluate]:
    [traversing()], [getCapability()], [getClearance()]. *)
Record search := mkSearch {
  traversing : option edge;
  getCapability : Z;
  getSearchClearance : Z
}.

Definition evaluate (this : search) (n target : option node) : bool :=
  match n, target with
  | Some n, Some target =>
      match traversing this with
      | None => false
      | Some e =>
          let to := getTo e in
          let from := getFrom e in
          if negb (getNum n =? to) && negb (getNum n =? from) then false
          else if negb (getNum target =? to) && negb (getNum target =? from)
          then false
          else
            let capability := getCapability this in
            let clearance := getSearchClearance this in
            if getClearance e capability >=? clearance then true else false
      end
  | _, _ => false
  end.

(** A node is an endpoint of an edge. *)
Definition endpoint (e : edge) (n : node) : Prop :=
  getNum n = getTo e \/ getNum n = getFrom e.

End WithEdgeClearance.

End Evaluate.

(** ** AnnotatedMapAbstraction: the annotated ground graph *)

Module AnnotatedMapAbstraction.

(** The tile grid ([Map]): dimensions and the terrain of every tile. *)
Record Map := mkMap {
  getMapWidth : Z;
  getMapHeight : Z;
  getTerrainType : Z -> Z -> Z
}.

(** A node of the ground graph with its annotations: the terrain type
    copied from the map and one clearance value per terrain combination. *)
Record node := mkNode {
  getNum : Z;
  terrainType : Z;
  clearances : gmap Z Z
}.

(** An edge of the ground graph; weights are C [double]s, modelled as
    real numbers (the code only stores the literal [1.0]). *)
Record edge := mkEdge { getFrom : Z; getTo : Z; getWeight : R }.

(** The level-0 graph of the abstraction: one node per traversable tile,
    indexed by the tile it was created for, and the edges in insertion
    order. *)
Record graph := mkGraph {
  nodes : gmap (Z * Z) node;
  edges : list edge
}.

(** The accessors of [node] are declared in a header that is not part of
    the sources: setters overwrite one annotation, [getClearance] reads
    the value stored for a terrain combination. *)
Definition setTerrainType (n : node) (t : Z) : node :=
  {| getNum := getNum n; terrainType := t; clearances := clearances n |}.

Definition setClearance (n : node) (terrain value : Z) : node :=
  {| getNum := getNum n; terrainType := terrainType n;
     clearances := <[terrain := value]> (clearances n) |}.

Definition getClearance (n : node) (terrain : Z) : Z :=
  default 0 (clearances n !! terrain).

Definition inMap (m : Map) (x y : Z) : bool :=
  (0 <=? x) && (x <? getMapWidth m) && (0 <=? y) && (y <? getMapHeight m).

(** Modelled from the spec: [getNodeFromMap(x,y)] is inherited from a
    class that is not part of the sources.  It gives the node of a tile,
    and null when the tile is missing: outside the map, or an obstacle
    (a tile without a node). *)
Definition getNodeFromMap (m : Map) (ns : gmap (Z * Z) node) (x y : Z)
  : option node :=
  if inMap m x y then ns !! (x, y) else None.

(** Modelled from the spec: [graph::findEdge] is an adjacency lookup of
    a class that is not part of the sources; the first edge between the
    two nodes, in either direction. *)
Definition findEdge (g : graph) (from to : Z) : option edge :=
  List.find (fun e => ((getFrom e =? from) && (getTo e =? to))
                      || ((getFrom e =? to) && (getTo e =? from)))
            (edges g).

Definition addEdge (g : graph) (e : edge) : graph :=
  {| nodes := nodes g; edges := edges g ++ [e] |}.

(** The values [0, 1, ..., n-1] of an ascending [for] loop. *)
Definition upto (n : Z) : list Z := Z.of_nat <$> seq 0 (Z.to_nat n).

Section WithTerrains.

(** The terrain constants [kGround] and [kTrees] come from a header
    that is not part of the sources. *)
Variables kGround kTrees : Z.

Definition validterrains : list Z :=
  [kGround; kTrees; Z.lor kGround kTrees].

(** *** annotateMap *)

(** Body of the loop over [validterrains] when all three neighbours
    exist. *)
Definition annotate_interior (adj1 adj2 adj3 : node) (n : node) (vt : Z)
  : node :=
  if Z.land vt (terrainType n) =? terrainType n then
    let min := getClearance adj1 vt in
    let min := if getClearance adj2 vt <? min
               then getClearance adj2 vt else min in
    let min := if getClearance adj3 vt <? min
               then getClearance adj3 vt else min in
    setClearance n vt (Int.add min 1)
  else setClearance n vt 0.

(** Body of the loop over [validterrains] on a border. *)
Definition annotate_border (n : node) (vt : Z) : node :=
  if Z.land vt (terrainType n) =? terrainType n
  then setClearance n vt 1
  else setClearance n vt 0.

(** Body of the two nested loops of [annotateMap] at tile [(x,y)]. *)
Definition annotate_tile (m : Map) (x y : Z) (ns : gmap (Z * Z) node)
  : gmap (Z * Z) node :=
  match getNodeFromMap m ns x y with
  | None => ns
  | Some n =>
      let n := setTerrainType n (getTerrainType m x y) in
      let adj1 := getNodeFromMap m ns (Int.add x 1) (Int.add y 1) in
      let adj2 := getNodeFromMap m ns (Int.add x 1) y in
      let adj3 := getNodeFromMap m ns x (Int.add y 1) in
      match adj1, adj2, adj3 with
      | Some adj1, Some adj2, Some adj3 =>
          <[(x, y) := foldl (annotate_interior adj1 adj2 adj3) n
                            validterrains]> ns
      | _, _, _ =>
          <[(x, y) := foldl annotate_border n validterrains]> ns
      end
  end.

(** [for(int y = h-1; y >= 0; y--)], started with [h = getMapHeight]. *)
Fixpoint annotate_column (m : Map) (x : Z) (h : nat)
         (ns : gmap (Z * Z) node) : gmap (Z * Z) node :=
  match h with
  | O => ns
  | S y => annotate_column m x y (annotate_tile m x (Z.of_nat y) ns)
  end.

(** [for(int x = w-1; x >= 0; x--)], started with [w = getMapWidth]. *)
Fixpoint annotate_columns (m : Map) (w : nat) (ns : gmap (Z * Z) node)
  : gmap (Z * Z) node :=
  match w with
  | O => ns
  | S x =>
      annotate_columns m x
        (annotate_column m (Z.of_nat x) (Z.to_nat (getMapHeight m)) ns)
  end.

Definition annotateMap (m : Map) (g : graph) : graph :=
  {| nodes := annotate_columns m (Z.to_nat (getMapWidth m)) (nodes g);
     edges := edges g |}.

(** *** addMissingEdges *)

(** The inner loop over the three neighbours W, N and NW of [n]. *)
Definition addMissingEdges_tile (m : Map) (x y : Z) (g : graph) : graph :=
  match getNodeFromMap m (nodes g) x y with
  | None => g
  | Some n =>
      let nid := getNum n in
      let neighbours :=
        [getNodeFromMap m (nodes g) (Int.sub x 1) y;
         getNodeFromMap m (nodes g) x (Int.sub y 1);
         getNodeFromMap m (nodes g) (Int.sub x 1) (Int.sub y 1)] in
      foldl (fun g nb =>
               match nb with
               | Some nb =>
                   match findEdge g nid (getNum nb) with
                   | None => addEdge g (mkEdge nid (getNum nb) 1%R)
                   | Some _ => g
                   end
               | None => g
               end) g neighbours
  end.

Definition addMissingEdges (m : Map) (g : graph) : graph :=
  foldl (fun g x =>
           foldl (fun g y => addMissingEdges_tile m x y g) g
                 (upto (getMapHeight m)))
        g (upto (getMapWidth m)).

(** *** pathable *)

(** A call of [AnnotatedAStar::getPath(this, from, to, terrain, size)]. *)
Record query := mkQuery {
  qFrom : node; qTo : node; qTerrain : Z; qSize : Z
}.

(** Computations that may run searches: the log of the searches invoked
    so far is threaded through. *)
Definition Search (A : Type) : Type := list query -> A * list query.

Definition ret {A} (a : A) : Search A := fun log => (a, log).

Definition bind {A B} (c : Search A) (k : A -> Search B) : Search B :=
  fun log => let '(a, log') := c log in k a log'.

(** The search itself is implemented by [AnnotatedAStar], which is not
    part of the sources; [aastar] gives the path it returns, if any. *)
Variable path : Type.
Variable aastar : node -> node -> Z -> Z -> option path.

Definition aastar_getPath (from to : node) (terrain agentsize : Z)
  : Search (option path) :=
  fun log => (aastar from to terrain agentsize,
              log ++ [mkQuery from to terrain agentsize]).

Definition pathable (from to : node) (terrain agentsize : Z)
  : Search bool :=
  if negb ((Z.land (terrainType from) terrain =? terrain)
           && (Z.land (terrainType to) terrain =? terrain)
           && (getClearance from (terrainType from) >=? agentsize)
           && (getClearance to (terrainType to) >=? agentsize))
  then ret false
  else
    bind (aastar_getPath from to terrain agentsize) (fun p =>
    match p with
    | Some _ => ret true
    | None => ret false
    end).

End WithTerrains.

End AnnotatedMapAbstraction.

(** ** AnnotatedClusterAbstraction: clusters, abstract graph, path cache

    The implementation of this class is not part of the sources (only its
    test suite is); the operations below follow the specification of the
    engine. *)

Module AnnotatedClusterAbstraction.

(** Modelled from the spec: the data model of section 3; the class
    declarations are not part of the sources.  A ground node
    (abstraction level 0) with its labels. *)
Record gnode := mkGNode {
  gnodeId : Z;
  gX : Z;
  gY : Z;
  gAbstractionLevel : Z;
  gParent : Z;
  gParentCluster : Z;
  gClearance : gmap Z Z
}.

(** An abstract node (level 1): back-link to its ground node and the
    owning cluster.  Its id is its key in the abstract graph. *)
Record anode := mkANode { aParent : Z; aParentCluster : Z }.

(** An abstract edge with its stable id, the capability it was created
    for and its clearance table. *)
Record aedge := mkAEdge {
  eId : Z;
  eFrom : Z;
  eTo : Z;
  eCapability : Z;
  eClearance : gmap Z Z
}.

Record cluster := mkCluster {
  clusterId : Z;
  originX : Z;
  originY : Z;
  cWidth : Z;
  cHeight : Z;
  parents : list Z
}.

(** The state of the engine: the labelled ground nodes, the abstract
    graph, the clusters, the path cache (from the id of an abstract edge
    to the ids of the ground nodes of its path), the ids of the inserted
    start and goal nodes ([-1] when there is none) and the next ids to be
    assigned to abstract nodes and edges. *)
Record aca := mkACA {
  ground : gmap Z gnode;
  absNodes : gmap Z anode;
  absEdges : list aedge;
  clusters : gmap Z cluster;
  pathCache : gmap Z (list Z);
  startid : Z;
  goalid : Z;
  nextNodeId : Z;
  nextEdgeId : Z
}.

Inductive error := NullNode | NonZeroAbstractionLevel | NotTraversable.

Inductive endpointKind := Start | Goal.

Definition setParent (g : gnode) (p : Z) : gnode :=
  {| gnodeId := gnodeId g; gX := gX g; gY := gY g;
     gAbstractionLevel := gAbstractionLevel g; gParent := p;
     gParentCluster := gParentCluster g; gClearance := gClearance g |}.

Definition getNodeClearance (g : gnode) (capability : Z) : Z :=
  default 0 (gClearance g !! capability).

Definition getEdgeClearance (e : aedge) (capability : Z) : Z :=
  default 0 (eClearance e !! capability).

Definition setParents (c : cluster) (ps : list Z) : cluster :=
  {| clusterId := clusterId c; originX := originX c; originY := originY c;
     cWidth := cWidth c; cHeight := cHeight c; parents := ps |}.

Definition incident (a : Z) (e : aedge) : bool :=
  (eFrom e =? a) || (eTo e =? a).

(** *** Path cache (4.G) *)

(** Modelled from the spec: the path cache maps the id of an abstract
    edge to its path; [getPathCacheSize] is its number of entries and
    [getPathFromCache] returns null on a miss or for a null edge. *)
Definition getPathCacheSize (st : aca) : nat := size (pathCache st).

Definition getPathFromCache (st : aca) (e : option aedge)
  : option (list Z) :=
  match e with
  | Some e => pathCache st !! eId e
  | None => None
  end.

(** *** Cluster decomposition (4.E) *)

(** Number of clusters along a side of length [d]: [d / S], plus one if
    [d % S > 0] (the computation of the test
    [buildClustersShouldSplitTheMapAreaIntoCorrectNumberOfClusters]). *)
Definition clustersAlong (d S : Z) : Z :=
  d / S + (if d mod S >? 0 then 1 else 0).

(** Modelled from the spec: [buildClusters] is not part of the sources.
    Clusters are created in row-major order; cluster [(i,j)] has origin
    [(i*S, j*S)], width [min(S, W - i*S)] and height [min(S, H - j*S)]. *)
Definition clusterAt (W H S : Z) (i j : Z) : cluster :=
  {| clusterId := j * clustersAlong W S + i;
     originX := i * S; originY := j * S;
     cWidth := Z.min S (W - i * S);
     cHeight := Z.min S (H - j * S);
     parents := [] |}.

Definition buildClusters (W H S : Z) : list cluster :=
  j ← AnnotatedMapAbstraction.upto (clustersAlong H S);
  i ← AnnotatedMapAbstraction.upto (clustersAlong W S);
  [clusterAt W H S i j].

(** Modelled from the spec: [TESTCLUSTERSIZE] is defined in
    [TestConstants.h], which is not part of the sources; the scenarios on
    [acmap] use cluster size 5. *)
Definition TESTCLUSTERSIZE : Z := 5.

(** *** Endpoint insertion and removal (4.H) *)

Section WithSearch.

(** Annotated A* restricted to the rectangle of a cluster, from one
    ground node to another under [(capability, clearance)]; the search
    class is not part of the sources. *)
Variable findPath : cluster -> Z -> Z -> Z -> Z -> option (list Z).

(** Modelled from the spec: step 3 of the insertion procedure for one
    abstract node [q] of the cluster: if the search from the ground
    node [p] to [q]'s ground node succeeds, add the abstract edge,
    record its clearance and cache the path. *)
Definition connect (P p : Z) (c : cluster) (capability clearance : Z)
           (st : aca) (q : Z) : aca :=
  match absNodes st !! q with
  | None => st
  | Some Q =>
      match findPath c p (aParent Q) capability clearance with
      | None => st
      | Some pa =>
          let e := {| eId := nextEdgeId st; eFrom := P; eTo := q;
                      eCapability := capability;
                      eClearance := {[ capability := clearance ]} |} in
          {| ground := ground st; absNodes := absNodes st;
             absEdges := absEdges st ++ [e];
             clusters := clusters st;
             pathCache := <[eId e := pa]> (pathCache st);
             startid := startid st; goalid := goalid st;
             nextNodeId := nextNodeId st;
             nextEdgeId := nextEdgeId st + 1 |}
      end
  end.

Definition registerParent (cid P : Z) (st : aca) : aca :=
  {| ground := ground st; absNodes := absNodes st;
     absEdges := absEdges st;
     clusters := alter (fun c => setParents c (parents c ++ [P])) cid
                       (clusters st);
     pathCache := pathCache st;
     startid := startid st; goalid := goalid st;
     nextNodeId := nextNodeId st; nextEdgeId := nextEdgeId st |}.

(** Modelled from the spec: steps 1 and 2 of the insertion procedure.
    A ground node whose [parent] label is non-negative is reused;
    otherwise a new abstract node is created, the [parent] label and
    [startid]/[goalid] are set, and the node is connected to and
    registered in its cluster. *)
Definition insertEndpoint (k : endpointKind) (pid : Z)
           (capability clearance : Z) (st : aca) : aca :=
  match ground st !! pid with
  | None => st
  | Some p =>
      if 0 <=? gParent p then st
      else
        let P := nextNodeId st in
        let st1 :=
          {| ground := <[pid := setParent p P]> (ground st);
             absNodes :=
               <[P := mkANode pid (gParentCluster p)]> (absNodes st);
             absEdges := absEdges st;
             clusters := clusters st;
             pathCache := pathCache st;
             startid := match k with Start => P | Goal => startid st end;
             goalid := match k with Start => goalid st | Goal => P end;
             nextNodeId := nextNodeId st + 1;
             nextEdgeId := nextEdgeId st |} in
        match clusters st !! gParentCluster p with
        | None => st1
        | Some c =>
            registerParent (gParentCluster p) P
              (foldl (connect P pid c capability clearance) st1
                     (parents c))
        end
  end.

Definition traversable (p : gnode) (capability clearance : Z) : bool :=
  getNodeClearance p capability >=? clearance.

(** Modelled from the spec: [insertStartAndGoalNodesIntoAbstractGraph].
    Both nodes must be non-null, at abstraction level 0 and traversable
    under the query's capability and clearance. *)
Definition insertStartAndGoalNodesIntoAbstractGraph
           (st : aca) (start goal : option Z) (capability clearance : Z)
  : error + aca :=
  match start, goal with
  | Some s, Some g =>
      match ground st !! s, ground st !! g with
      | Some sn, Some gn =>
          if negb (gAbstractionLevel sn =? 0)
             || negb (gAbstractionLevel gn =? 0)
          then inl NonZeroAbstractionLevel
          else if negb (traversable sn capability clearance)
                  || negb (traversable gn capability clearance)
          then inl NotTraversable
          else inr (insertEndpoint Goal g capability clearance
                      (insertEndpoint Start s capability clearance st))
      | _, _ => inl NullNode
      end
  | _, _ => inl NullNode
  end.

(** Modelled from the spec: removal of one transient abstract node:
    its incident edges and their cache entries are dropped, the
    [parent] label of its ground node is reset to [-1] and the node is
    unregistered from its cluster. *)
Definition removeEndpoint (a : Z) (st : aca) : aca :=
  match absNodes st !! a with
  | None => st
  | Some P =>
      {| ground := alter (fun g => setParent g (-1)) (aParent P)
                         (ground st);
         absNodes := delete a (absNodes st);
         absEdges := List.filter (fun e => negb (incident a e))
                                 (absEdges st);
         clusters :=
           alter (fun c => setParents c
                    (List.filter (fun q => negb (q =? a)) (parents c)))
                 (aParentCluster P) (clusters st);
         pathCache :=
           foldr (fun e c => delete (eId e) c) (pathCache st)
                 (List.filter (incident a) (absEdges st));
         startid := startid st; goalid := goalid st;
         nextNodeId := nextNodeId st; nextEdgeId := nextEdgeId st |}
  end.

(** Modelled from the spec: [removeStartAndGoalNodesFromAbstractGraph]
    removes the nodes recorded in [startid] and [goalid] (only those
    actually created) and resets both ids to [-1]. *)
Definition removeStartAndGoalNodesFromAbstractGraph (st : aca) : aca :=
  let st1 := if startid st =? -1 then st
             else removeEndpoint (startid st) st in
  let st2 := if goalid st1 =? -1 then st1
             else removeEndpoint (goalid st1) st1 in
  {| ground := ground st2; absNodes := absNodes st2;
     absEdges := absEdges st2; clusters := clusters st2;
     pathCache := pathCache st2;
     startid := -1; goalid := -1;
     nextNodeId := nextNodeId st2; nextEdgeId := nextEdgeId st2 |}.

End WithSearch.

(** *** Transition dominance (4.F) *)

(** An edge between [u] and [v] (in either direction) that is admissible
    under [(capability, clearance)] exists in the abstract graph. *)
Definition annotatedEdgeExists (st : aca) (u v capability clearance : Z)
  : bool :=
  existsb (fun e =>
             (((eFrom e =? u) && (eTo e =? v))
              || ((eFrom e =? v) && (eTo e =? u)))
             && (getEdgeClearance e capability >=? clearance))
          (absEdges st).

(** The clearance of an edge for its own capability: the [k] of its
    profile [(c, k)]. *)
Definition ownClearance (e : aedge) : Z :=
  getEdgeClearance e (eCapability e).

(** Modelled from the spec: [e1] with [(c1,k1)] weakly dominates [e2]
    with [(c2,k2)] iff (a) [c1] is a subset of [c2] and [k1 >= k2], and
    (b) the edges [(e2.from, e1.from)] and [(e2.to, e1.to)] exist under
    [(c2,k2)]. *)
Definition dominates (st : aca) (e1 e2 : aedge) : bool :=
  (Z.land (eCapability e1) (eCapability e2) =? eCapability e1)
  && (ownClearance e1 >=? ownClearance e2)
  && annotatedEdgeExists st (eFrom e2) (eFrom e1)
                         (eCapability e2) (ownClearance e2)
  && annotatedEdgeExists st (eTo e2) (eTo e1)
                         (eCapability e2) (ownClearance e2).

(** Both endpoints of the edge are ids of nodes of the abstract graph. *)
Definition validEndpoints (st : aca) (e : aedge) : bool :=
  bool_decide (is_Some (absNodes st !! eFrom e))
  && bool_decide (is_Some (absNodes st !! eTo e)).

Definition clusterOf (st : aca) (a : Z) : option Z :=
  aParentCluster <$> absNodes st !! a.

(** The two edges connect the same pair of clusters. *)
Definition sameClusterPair (st : aca) (e1 e2 : aedge) : bool :=
  bool_decide (clusterOf st (eFrom e1) = clusterOf st (eFrom e2))
  && bool_decide (clusterOf st (eTo e1) = clusterOf st (eTo e2)).

Section WithTieBreak.

(** The edge reported when each of the two edges weakly dominates the
    other; the specification leaves this choice open. *)
Variable tieBreak : aedge -> aedge -> aedge.

(** Modelled from the spec: [findDominantTransition] is not part of the
    sources.  Null arguments, invalid endpoints and edges between
    different cluster pairs yield no dominant edge; otherwise the edge
    that weakly dominates the other one is reported. *)
Definition findDominantTransition (st : aca) (e1 e2 : option aedge)
  : option aedge :=
  match e1, e2 with
  | Some e1, Some e2 =>
      if negb (validEndpoints st e1 && validEndpoints st e2) then None
      else if negb (sameClusterPair st e1 e2) then None
      else
        match dominates st e1 e2, dominates st e2 e1 with
        | true, true => Some (tieBreak e1 e2)
        | true, false => Some e1
        | false, true => Some e2
        | false, false => None
        end
  | _, _ => None
  end.

End WithTieBreak.

(** The state of the engine between two queries: no endpoint is
    recorded, [parent] labels are [-1] or ids, and the ids in use are
    below the next ids to be assigned. *)
Definition wf (st : aca) : Prop :=
  startid st = -1 /\ goalid st = -1 /\
  map_Forall (fun _ g => -1 <= gParent g) (ground st) /\
  0 <= nextNodeId st /\
  map_Forall (fun k _ => k < nextNodeId st) (absNodes st) /\
  Forall (fun e => eFrom e < nextNodeId st /\ eTo e < nextNodeId st)
         (absEdges st) /\
  map_Forall (fun k _ => k < nextEdgeId st) (pathCache st).

#[global] Instance wf_dec (st : aca) : Decision (wf st).
Proof. unfold wf. apply _. Defined.

End AnnotatedClusterAbstraction.

(** ** AnnotatedHierarchicalAStar::getPath *)

Module AnnotatedHierarchicalAStar.
Import Graph.

(** How a call of [getPath] ends: it returns a path or null, an
    exception of the insertion propagates, the process is terminated by
    [exit(-1)], or a null pointer is dereferenced. *)
Inductive outcome (error : Type) :=
| Returned (p : option (list node))
| Threw (e : error)
| Exited
| Crashed.
Arguments Returned {error} p.
Arguments Threw {error} e.
Arguments Exited {error}.
Arguments Crashed {error}.

(** The calls that mutate the abstraction during a query. *)
Inductive event := Inserted | Removed.

Section GetPath.

(** The abstraction [aca] and the operations [getPath] calls on it and
    on the abstract graph; they are declared in headers that are not
    part of the sources. *)
Variables aca error : Type.
Variable insertStartAndGoalNodesIntoAbstractGraph :
  aca -> node -> node -> error + aca.
Variable removeStartAndGoalNodesFromAbstractGraph : aca -> aca.
(** [n->getLabelL(kParent)] of a ground node. *)
Variable getLabelL_kParent : aca -> node -> Z.
(** [absg->getNode(id)] *)
Variable getNode : aca -> Z -> option node.
Variable getAbstractPath :
  aca -> option node -> option node -> option (list node).
Variable findAnnotatedEdge : aca -> node -> node -> Z -> Z -> option edge.
Variable getPathFromCache : aca -> option edge -> option (list node).

(** [getCapability()] and [getClearance()] of the search. *)
Variables capability clearance : Z.

(** The [while(tmp->next)] loop: the cached segment of every further
    abstract edge is appended to [thepath]; [inl] is an abnormal end. *)
Fixpoint stitch (a : aca) (thepath : list node) (tmp : list node)
  : outcome error + list node :=
  match tmp with
  | n :: ((n' :: _) as next) =>
      let tail := last thepath in
      match findAnnotatedEdge a n n' capability clearance with
      | None => inl Exited
      | Some e =>
          match getPathFromCache a (Some e) with
          | None => inl Crashed
          | Some cachedpath =>
              let cachedpath :=
                if negb (getFrom e =? getNum n)
                then rev cachedpath else cachedpath in
              match tail, cachedpath with
              | Some t, c :: cnext =>
                  if getNum t =? getNum c
                  then stitch a (thepath ++ cnext) next
                  else inl Exited
              | _, _ => inl Crashed
              end
          end
      end
  | _ => inr thepath
  end.

Definition getPath (aMap : aca) (from to : node)
  : outcome error * aca * list event :=
  match insertStartAndGoalNodesIntoAbstractGraph aMap from to with
  | inl err => (Threw err, aMap, [])
  | inr a =>
      let absstart := getNode a (getLabelL_kParent a from) in
      let absgoal := getNode a (getLabelL_kParent a to) in
      match getAbstractPath a absstart absgoal with
      | None => (Returned None, a, [Inserted])
      | Some abspath =>
          match abspath with
          | n0 :: ((n1 :: _) as next) =>
              let e := findAnnotatedEdge a n0 n1 capability clearance in
              match getPathFromCache a e with
              | None => (Crashed, a, [Inserted])
              | Some thepath =>
                  match stitch a thepath next with
                  | inl o => (o, a, [Inserted])
                  | inr thepath =>
                      (Returned (Some thepath),
                       removeStartAndGoalNodesFromAbstractGraph a,
                       [Inserted; Removed])
                  end
              end
          | _ => (Crashed, a, [Inserted])
          end
      end
  end.

End GetPath.

End AnnotatedHierarchicalAStar.

(** * Specification-side definitions and invariants *)

Module GroundSpec.
Import AnnotatedMapAbstraction.

(** An endpoint fails the terrain or clearance test of [pathable]. *)
Definition rejected (from to : node) (terrain agentsize : Z) : Prop :=
  Z.land (terrainType from) terrain <> terrain
  \/ Z.land (terrainType to) terrain <> terrain
  \/ getClearance from (terrainType from) < agentsize
  \/ getClearance to (terrainType to) < agentsize.

(** The clearance rule of the specification, read in a node store [ns]:
    [0] if the terrain of the tile is not contained in [s]; else [1] if
    one of the successors [(x+1,y)], [(x,y+1)], [(x+1,y+1)] is missing;
    else one plus the minimum of the successors' clearance for [s]. *)
Definition clearance_rule (m : Map) (ns : gmap (Z * Z) node) (x y s : Z)
  : Z :=
  let t := getTerrainType m x y in
  if Z.land s t =? t then
    match getNodeFromMap m ns (x + 1) y,
          getNodeFromMap m ns x (y + 1),
          getNodeFromMap m ns (x + 1) (y + 1) with
    | Some e, Some s', Some se =>
        1 + Z.min (getClearance e s)
                  (Z.min (getClearance s' s) (getClearance se s))
    | _, _, _ => 1
    end
  else 0.

(** The annotations of tile [(x,y)] in [ns] obey the rule. *)
Definition annotated (vts : list Z) (m : Map) (ns : gmap (Z * Z) node)
           (x y : Z) : Prop :=
  forall n, getNodeFromMap m ns x y = Some n ->
            terrainType n = getTerrainType m x y /\
            forall s, s ∈ vts -> getClearance n s = clearance_rule m ns x y s.

(** The clearance values of tile [(x,y)] in [ns] are at most the distance
    to the right border of the map. *)
Definition bounded (vts : list Z) (m : Map) (ns : gmap (Z * Z) node)
           (x y : Z) : Prop :=
  forall n, getNodeFromMap m ns x y = Some n ->
            forall s, s ∈ vts -> 0 <= getClearance n s <= getMapWidth m - x.

End GroundSpec.

Module EndpointInvariant.
Import AnnotatedClusterAbstraction.

(** The edge touches none of the nodes in [S]. *)
Definition outside (S : gset Z) (e : aedge) : bool :=
  bool_decide ((eFrom e ∉ S) /\ (eTo e ∉ S)).

(** [during st0 st S]: [st] is the state [st0] to which the transient
    abstract nodes with the ids in [S] have been added, with their edges,
    cached paths and [parent] labels. *)
Record during (st0 st : aca) (S : gset Z) : Prop := mkDuring {
  d_nodes_frame : forall k, k ∉ S -> absNodes st !! k = absNodes st0 !! k;
  d_nodes_new : forall k, k ∈ S ->
    absNodes st0 !! k = None /\ is_Some (absNodes st !! k) /\ 0 <= k;
  d_edges : List.filter (outside S) (absEdges st) = absEdges st0;
  d_cache_new : forall e, e ∈ absEdges st -> outside S e = false ->
    pathCache st0 !! eId e = None;
  d_cache_frame : forall k,
    (forall e, e ∈ absEdges st -> outside S e = false -> eId e <> k) ->
    pathCache st !! k = pathCache st0 !! k;
  d_ground_new : forall a P, a ∈ S -> absNodes st !! a = Some P ->
    exists g, ground st0 !! aParent P = Some g /\ gParent g = (-1) /\
              ground st !! aParent P = Some (setParent g a);
  d_ground_frame : forall k,
    (forall a P, a ∈ S -> absNodes st !! a = Some P -> aParent P <> k) ->
    ground st !! k = ground st0 !! k;
  d_ground_parent : forall k g, ground st0 !! k = Some g -> -1 <= gParent g;
  d_next_node : 0 <= nextNodeId st;
  d_nodes_bound : forall k, is_Some (absNodes st !! k) -> k < nextNodeId st;
  d_edges_bound : forall e, e ∈ absEdges st ->
    eFrom e < nextNodeId st /\ eTo e < nextNodeId st;
  d_cache_bound : forall k, is_Some (pathCache st0 !! k) -> k < nextEdgeId st;
  d_next_node_mono : nextNodeId st0 <= nextNodeId st;
  d_next_edge_mono : nextEdgeId st0 <= nextEdgeId st
}.

(** The transient nodes recorded in [startid] and [goalid]. *)
Definition recorded (sid gid : Z) : gset Z :=
  (if decide (sid = -1) then ∅ else {[sid]})
  ∪ (if decide (gid = -1) then ∅ else {[gid]}).

End EndpointInvariant.

(** * Concrete maps and engines

    The terrain constants are bit flags; the concrete inputs use
    [kGround = 1] and [kTrees = 2]. *)

Module Fixtures.

Definition kGround : Z := 1.
Definition kTrees : Z := 2.

(** ** Ground graphs *)

Module Ground.
Import AnnotatedMapAbstraction.

(** A 2x2 map whose upper row is ground and whose lower row is trees:
<<
  G G
  T T
>>
    Node ids are assigned row by row. *)
Definition map2x2 : Map :=
  {| getMapWidth := 2; getMapHeight := 2;
     getTerrainType := fun x y => if y =? 0 then kGround else kTrees |}.

Definition nodes2x2 : gmap (Z * Z) node :=
  list_to_map
    [((0, 0), mkNode 0 kGround ∅); ((1, 0), mkNode 1 kGround ∅);
     ((0, 1), mkNode 2 kTrees ∅); ((1, 1), mkNode 3 kTrees ∅)].

(** The graph before [addMissingEdges]: as the comment of the function
    says, neighbouring nodes of different terrain types have no edge
    between them; the two pairs of equal terrain are connected. *)
Definition graph2x2 : graph :=
  {| nodes := nodes2x2;
     edges := [mkEdge 0 1 1%R; mkEdge 2 3 1%R] |}.

(** The 5x4 map of the comment at the head of
    [AnnotatedMapAbstraction.cpp], every tile being ground; the nodes
    carry no annotation yet. *)
Definition map5x4 : Map :=
  {| getMapWidth := 5; getMapHeight := 4;
     getTerrainType := fun _ _ => kGround |}.

Definition graph5x4 : graph :=
  {| nodes :=
       list_to_map
         (y ← upto 4; x ← upto 5; [((x, y), mkNode (y * 5 + x) 0 ∅)]);
     edges := [] |}.

(** The same map with an obstacle at [(1,1)] and trees at [(3,0)]. *)
Definition map5x4' : Map :=
  {| getMapWidth := 5; getMapHeight := 4;
     getTerrainType := fun x y =>
       if (x =? 3) && (y =? 0) then kTrees else kGround |}.

Definition graph5x4' : graph :=
  {| nodes := delete (1, 1) (nodes graph5x4); edges := [] |}.

End Ground.

(** ** Engines *)

Module Engine.
Import AnnotatedClusterAbstraction.

Definition gnodeAt (i x c p : Z) : gnode :=
  {| gnodeId := i; gX := x; gY := 0; gAbstractionLevel := 0;
     gParent := p; gParentCluster := c;
     gClearance := {[ kGround := 1 ]} |}.

(** An engine with two ground nodes in two clusters and an empty
    abstract graph; the low-level search finds no path, so no abstract
    edge is ever created. *)
Definition engine : aca :=
  {| ground := <[0 := gnodeAt 0 0 0 (-1)]> (<[1 := gnodeAt 1 5 1 (-1)]> ∅);
     absNodes := ∅;
     absEdges := [];
     clusters := <[0 := mkCluster 0 0 0 5 1 []]>
                   (<[1 := mkCluster 1 5 0 5 1 []]> ∅);
     pathCache := ∅;
     startid := -1; goalid := -1; nextNodeId := 0; nextEdgeId := 0 |}.

Definition noPath (c : cluster) (from to capability clearance : Z)
  : option (list Z) := None.

(** The operations [getPath] uses, on this model of the abstraction,
    for a search with capability [kGround] and clearance 1. *)
Definition insert (a : aca) (from to : Graph.node) : error + aca :=
  insertStartAndGoalNodesIntoAbstractGraph noPath a
    (Some (Graph.getNum from)) (Some (Graph.getNum to)) kGround 1.

Definition kParent (a : aca) (n : Graph.node) : Z :=
  default (-1) (gParent <$> ground a !! Graph.getNum n).

Definition getNode (a : aca) (id : Z) : option Graph.node :=
  match absNodes a !! id with
  | Some _ => Some (Graph.mkNode id)
  | None => None
  end.

Definition findAnnotatedEdge (a : aca) (u v : Graph.node)
           (capability clearance : Z) : option Graph.edge :=
  (fun e => Graph.mkEdge (eFrom e) (eTo e) (eId e)) <$>
  List.find (fun e =>
               (((eFrom e =? Graph.getNum u) && (eTo e =? Graph.getNum v))
                || ((eFrom e =? Graph.getNum v)
                    && (eTo e =? Graph.getNum u)))
               && (getEdgeClearance e capability >=? clearance))
            (absEdges a).

Definition cachedPath (a : aca) (e : option Graph.edge)
  : option (list Graph.node) :=
  match e with
  | Some e =>
      (fun p : list Z => Graph.mkNode <$> p)
        <$> pathCache a !! Graph.edgeId e
  | None => None
  end.

(** The abstract graph of [engine] never has an edge, so the abstract
    search between two different nodes finds no path. *)
Definition abstractSearch (a : aca) (s g : option Graph.node)
  : option (list Graph.node) := None.

(** An engine with three ground nodes in one cluster; the third one is
    the ground node of the abstract node 0.  Every low-level search
    succeeds with the two-node path from its source to its target. *)
Definition corridor : aca :=
  {| ground := <[0 := gnodeAt 0 0 0 (-1)]>
                 (<[1 := gnodeAt 1 1 0 (-1)]>
                    (<[2 := gnodeAt 2 2 0 0]> ∅));
     absNodes := {[ 0 := mkANode 2 0 ]};
     absEdges := [];
     clusters := {[ 0 := mkCluster 0 0 0 3 1 [0] ]};
     pathCache := ∅;
     startid := -1; goalid := -1; nextNodeId := 1; nextEdgeId := 0 |}.

Definition straight (c : cluster) (from to capability clearance : Z)
  : option (list Z) := Some [from; to].

(** The data of [setupDominanceRelationshipTestData]: four abstract
    nodes, [n1] and [n3] in cluster 0, [n2] and [n4] in cluster 1; the
    edges [e1 = (n1,n2)] and [e2 = (n3,n4)] with the given profiles;
    and the two edges [(n1,n3)] and [(n2,n4)] that complete the
    circuit, with the profile of [e2]. *)
Definition annotatedEdge (id from to capability clearance : Z) : aedge :=
  {| eId := id; eFrom := from; eTo := to; eCapability := capability;
     eClearance := {[ capability := clearance ]} |}.

Definition dominanceData (c1 c2 c3 c4 : Z)
           (dmCapability dmClearance dtCapability dtClearance : Z) : aca :=
  {| ground := ∅;
     absNodes := <[0 := mkANode 0 c1]>
                   (<[1 := mkANode 1 c2]>
                      (<[2 := mkANode 2 c3]> (<[3 := mkANode 3 c4]> ∅)));
     absEdges := [annotatedEdge 0 0 1 dmCapability dmClearance;
                  annotatedEdge 1 2 3 dtCapability dtClearance;
                  annotatedEdge 2 0 2 dtCapability dtClearance;
                  annotatedEdge 3 1 3 dtCapability dtClearance];
     clusters := ∅; pathCache := ∅;
     startid := -1; goalid := -1; nextNodeId := 4; nextEdgeId := 4 |}.

(** An engine whose abstract graph is empty. *)
Definition emptyEngine : aca :=
  {| ground := ∅; absNodes := ∅; absEdges := []; clusters := ∅;
     pathCache := ∅; startid := -1; goalid := -1;
     nextNodeId := 0; nextEdgeId := 0 |}.

(** A tie-break: the edge created first (the lower id) is reported. *)
Definition lowerId (a b : aedge) : aedge :=
  if eId a <=? eId b then a else b.

End Engine.

End Fixtures.

(** * The remaining methods of AnnotatedMapAbstraction *)

Module MapAbstractionObject.
Import AnnotatedMapAbstraction.

(** The fields of the object the constructor sets: the recognised terrain
    combinations, the graphs of the abstraction (level 0 first) and the
    flag that enables the drawing of clearance values. *)
Record ama := mkAma {
  validterrainsOf : list Z;
  abstractions : list graph;
  drawCV : bool
}.

Section WithTerrains.

Variables kGround kTrees : Z.

(** [AnnotatedMapAbstraction(Map* m)]: the graph of the map
    ([getMapGraph(m)], built by a class that is not part of the sources) is
    pushed as level 0, completed by [addMissingEdges] and annotated by
    [annotateMap]. *)
Definition construct (m : Map) (mapGraph : graph) : ama :=
  let g := addMissingEdges m mapGraph in
  let g := annotateMap kGround kTrees m g in
  {| validterrainsOf := validterrains kGround kTrees;
     abstractions := [g];
     drawCV := false |}.

Variable path : Type.
Variable aastar : node -> node -> Z -> Z -> option path.

(** [pathable(node* from, node* to)]: the default values are used. *)
Definition pathableDefault (from to : node) : Search bool :=
  pathable path aastar from to (Z.lor kGround kTrees) 1.

End WithTerrains.

End MapAbstractionObject.

(** ** Squares of traversable tiles *)

Module SquareSpec.
Import AnnotatedMapAbstraction.

(** The tile has a node and its terrain is contained in [s]. *)
Definition traversableTile (m : Map) (ns : gmap (Z * Z) node) (s x y : Z)
  : Prop :=
  is_Some (getNodeFromMap m ns x y)
  /\ Z.land s (getTerrainType m x y) = getTerrainType m x y.

(** Every tile of the square of side [k] whose upper left corner is
    [(x,y)] is traversable under [s]. *)
Definition clearSquare (m : Map) (ns : gmap (Z * Z) node) (s x y k : Z)
  : Prop :=
  forall dx dy, 0 <= dx < k -> 0 <= dy < k ->
                traversableTile m ns s (x + dx) (y + dy).

End SquareSpec.

(** ** What addMissingEdges adds *)

Module EdgeSpec.
Import AnnotatedMapAbstraction.

(** The test of [findEdge]: the edge joins the nodes [a] and [b], in
    either direction. *)
Definition joins (a b : Z) (e : edge) : bool :=
  ((getFrom e =? a) && (getTo e =? b)) || ((getFrom e =? b) && (getTo e =? a)).

(** The array [neighbours] that [addMissingEdges] fills at tile [(x,y)]. *)
Definition neighbours (m : Map) (ns : gmap (Z * Z) node) (x y : Z)
  : list (option node) :=
  [getNodeFromMap m ns (Int.sub x 1) y;
   getNodeFromMap m ns x (Int.sub y 1);
   getNodeFromMap m ns (Int.sub x 1) (Int.sub y 1)].

(** [e] is an edge [new edge(nid, neighbours[i]->getNum(), 1.0)] for the
    node of some tile. *)
Definition created (m : Map) (ns : gmap (Z * Z) node) (e : edge) : Prop :=
  exists x y n nb,
    getNodeFromMap m ns x y = Some n /\
    Some nb ∈ neighbours m ns x y /\
    e = mkEdge (getNum n) (getNum nb) 1%R.

(** Every edge of [l], appended in this order to [old], joins two nodes
    that no edge before it joins. *)
Fixpoint fresh (old l : list edge) : Prop :=
  match l with
  | [] => True
  | e :: l' =>
      List.find (joins (getFrom e) (getTo e)) old = None
      /\ fresh (old ++ [e]) l'
  end.

(** [g'] is [g] after some iterations of the loops of [addMissingEdges]. *)
Record extends (m : Map) (g g' : graph) : Prop := mkExtends {
  ext_nodes : nodes g' = nodes g;
  ext_edges : exists l, edges g' = edges g ++ l
                        /\ Forall (created m (nodes g)) l
                        /\ fresh (edges g) l
}.

(** The node of tile [(x,y)] has an edge to each of its three
    neighbours. *)
Definition complete (m : Map) (x y : Z) (g : graph) : Prop :=
  forall n nb, getNodeFromMap m (nodes g) x y = Some n ->
               Some nb ∈ neighbours m (nodes g) x y ->
               is_Some (findEdge g (getNum n) (getNum nb)).

(** The two graphs have the same edges and, tile by tile, nodes of the
    same id. *)
Definition alike (g1 g2 : graph) : Prop :=
  edges g1 = edges g2
  /\ forall k, getNum <$> nodes g1 !! k = getNum <$> nodes g2 !! k.

End EdgeSpec.

(** ** Clusters and tiles *)

Module ClusterSpec.
Import AnnotatedClusterAbstraction.


End ClusterSpec.

(** ** Further fixtures *)

Module TieBreaks.
Import AnnotatedClusterAbstraction.

(** A tie-break: the first argument is reported. *)
Definition firstArgument (a b : aedge) : aedge := a.

End TieBreaks.

Module Route.
Import AnnotatedClusterAbstraction Fixtures Fixtures.Engine.

(** The operations of a query on [corridor]: the insertion with a
    low-level search that always succeeds, and an abstract search that
    routes every query through the abstract node 0. *)
Definition insertStraight (a : aca) (from to : Graph.node) : error + aca :=
  insertStartAndGoalNodesIntoAbstractGraph straight a
    (Some (Graph.getNum from)) (Some (Graph.getNum to)) kGround 1.

Definition viaHub (a : aca) (s g : option Graph.node)
  : option (list Graph.node) :=
  match s, g with
  | Some s, Some g => Some [s; Graph.mkNode 0; g]
  | _, _ => None
  end.

(** A search that always finds a path. *)
Definition always (from to : AnnotatedMapAbstraction.node)
           (terrain agentsize : Z) : option unit := Some tt.

End Route.

(** ** AnnotatedMapAbstraction::drawClearanceInfo *)

Module Draw.
Import AnnotatedMapAbstraction.

(** [sprintf(clearance, "%x", v)] for an [int] [v]: the value is read as
    an [unsigned int] and written in base 16 without leading zeros, most
    significant digit first, followed by the terminating NUL.
    Characters are given by their codes. *)
Definition toUnsigned (v : Z) : Z := v mod 4294967296.

Definition hexChar (d : Z) : Z := if d <? 10 then 48 + d else 87 + d.

Fixpoint hexDigits (fuel : nat) (u : Z) : list Z :=
  match fuel with
  | O => []
  | S fuel =>
      if u <? 16 then [u] else hexDigits fuel (u / 16) ++ [u mod 16]
  end.

Definition sprintf_x (v : Z) : list Z :=
  (hexChar <$> hexDigits 8 (toUnsigned v)) ++ [0].

(** [char clearance[2]] *)
Definition clearance_size : nat := 2.

(** The body of the loops for a node: the characters [clearance[0]] and
    [clearance[1]] handed to [glutBitmapCharacter], or [None] when
    [sprintf] writes past the end of [clearance].  The OpenGL calls
    themselves are not modelled. *)
Definition drawnCharacters (n : node) : option (Z * Z) :=
  let bytes := sprintf_x (getClearance n (terrainType n)) in
  if (length bytes <=? clearance_size)%nat
  then Some (nth 0 bytes 0, nth 1 bytes 0)
  else None.

(** The two loops over the tiles: the characters drawn, tile by tile, or
    [None] when the buffer is overrun at some tile.
    [getNodeFromMap(i,j,kNone)] is the node of the tile. *)
Definition drawClearanceInfo (m : Map) (ns : gmap (Z * Z) node)
  : option (list (Z * Z * (Z * Z))) :=
  foldl (fun acc i =>
           foldl (fun acc j =>
                    match acc with
                    | None => None
                    | Some drawn =>
                        match getNodeFromMap m ns i j with
                        | None => Some drawn
                        | Some n =>
                            match drawnCharacters n with
                            | None => None
                            | Some cs => Some (drawn ++ [(i, j, cs)])
                            end
                        end
                    end) acc (upto (getMapHeight m)))
        (Some []) (upto (getMapWidth m)).

End Draw.

Module BigMap.
Import AnnotatedMapAbstraction Fixtures.

(** A 16x16 map of ground, every tile with a node. *)
Definition map16 : Map :=
  {| getMapWidth := 16; getMapHeight := 16;
     getTerrainType := fun _ _ => kGround |}.

Definition graph16 : graph :=
  {| nodes :=
       list_to_map
         (y ← upto 16; x ← upto 16; [((x, y), mkNode (y * 16 + x) 0 ∅)]);
     edges := [] |}.

(** Every tile of the square of side [k] at the origin has a node. *)
Definition fullSquare (m : Map) (ns : gmap (Z * Z) node) (k : Z) : bool :=
  forallb (fun dx =>
             forallb (fun dy =>
                        bool_decide (is_Some (getNodeFromMap m ns dx dy)))
                     (upto k))
          (upto k).

End BigMap.

(** * Theorems *)

(** ** evaluate *)

Module EvaluateFacts.
Import Graph Evaluate.

Lemma endpoint_test (e : edge) (n : node) :
  negb (getNum n =? getTo e) && negb (getNum n =? getFrom e) = false
  <-> endpoint e n.
Proof.
  unfold endpoint.
  destruct (Z.eqb_spec (getNum n) (getTo e)),
           (Z.eqb_spec (getNum n) (getFrom e)); simpl; intuition congruence.
Qed.

(** C9: [evaluate(n, target)] returns true exactly when both nodes are
    non-null, an edge is being traversed, both nodes are endpoints of
    that edge and the clearance of the edge for the capability of the
    search is at least the clearance the search requires; in every other
    case (a null node, no traversed edge, a node that is not an endpoint,
    too small a clearance) it returns false. *)
Theorem evaluate_true_iff (getClearance : edge -> Z -> Z) (this : search)
        (n target : option node) :
  evaluate getClearance this n target = true <->
  exists n0 t0 e,
    n = Some n0 /\ target = Some t0 /\ traversing this = Some e /\
    endpoint e n0 /\ endpoint e t0 /\
    getSearchClearance this <= getClearance e (getCapability this).
Proof.
  unfold evaluate. split.
  - destruct n as [n0|]; [|discriminate].
    destruct target as [t0|]; [|discriminate].
    destruct (traversing this) as [e|]; [|discriminate].
    destruct (negb (getNum n0 =? getTo e) && negb (getNum n0 =? getFrom e))
      eqn:Hn; [discriminate|].
    destruct (negb (getNum t0 =? getTo e) && negb (getNum t0 =? getFrom e))
      eqn:Ht; [discriminate|].
    destruct (Z.geb_spec (getClearance e (getCapability this))
                         (getSearchClearance this)); [|discriminate].
    intros _. exists n0, t0, e.
    apply endpoint_test in Hn, Ht. repeat split; auto; lia.
  - intros (n0 & t0 & e & -> & -> & -> & Hn & Ht & Hc).
    apply endpoint_test in Hn, Ht. rewrite Hn, Ht.
    destruct (Z.geb_spec (getClearance e (getCapability this))
                         (getSearchClearance this)); [reflexivity|lia].
Qed.

End EvaluateFacts.

(** ** pathable *)

Module PathableFacts.
Import AnnotatedMapAbstraction GroundSpec.

Lemma guard_false_iff (from to : node) (terrain agentsize : Z) :
  (Z.land (terrainType from) terrain =? terrain)
  && (Z.land (terrainType to) terrain =? terrain)
  && (getClearance from (terrainType from) >=? agentsize)
  && (getClearance to (terrainType to) >=? agentsize) = false
  <-> rejected from to terrain agentsize.
Proof.
  unfold rejected.
  destruct (Z.eqb_spec (Z.land (terrainType from) terrain) terrain),
           (Z.eqb_spec (Z.land (terrainType to) terrain) terrain),
           (Z.geb_spec (getClearance from (terrainType from)) agentsize),
           (Z.geb_spec (getClearance to (terrainType to)) agentsize);
    simpl; split; intros Hr; try discriminate; try tauto;
    destruct Hr as [Hr|[Hr|[Hr|Hr]]]; try contradiction; lia.
Qed.

(** C10: when an endpoint is rejected, [pathable] returns false and the
    log of searches is unchanged (no search is invoked); otherwise it
    invokes exactly one search, from [from] to [to] under
    [(terrain, agentsize)], and returns true iff that search returns a
    path. *)
Theorem pathable_spec (path : Type)
        (aastar : node -> node -> Z -> Z -> option path)
        (from to : node) (terrain agentsize : Z) (log : list query) :
  (rejected from to terrain agentsize ->
   pathable path aastar from to terrain agentsize log = (false, log))
  /\
  (~ rejected from to terrain agentsize ->
   pathable path aastar from to terrain agentsize log
   = (bool_decide (is_Some (aastar from to terrain agentsize)),
      log ++ [mkQuery from to terrain agentsize])).
Proof.
  unfold pathable. split; intros H.
  - apply guard_false_iff in H. rewrite H. reflexivity.
  - rewrite <- guard_false_iff in H. apply not_false_is_true in H.
    rewrite H. simpl. unfold bind, aastar_getPath.
    destruct (aastar from to terrain agentsize); reflexivity.
Qed.

End PathableFacts.

(** ** annotateMap *)

Module AnnotateFacts.
Import AnnotatedMapAbstraction GroundSpec.

Lemma wrap_small (z : Z) :
  -2147483648 <= z <= Int.INT_MAX -> Int.wrap z = z.
Proof.
  unfold Int.wrap, Int.INT_MAX. intros Hz.
  rewrite Z.mod_small by lia. lia.
Qed.

Section Loop.
Variable f : node -> Z -> node.
Variable val : Z -> Z -> Z.
Hypothesis f_set :
  forall n s, f n s = setClearance n s (val (terrainType n) s).

Lemma foldl_terrainType (l : list Z) (n : node) :
  terrainType (foldl f n l) = terrainType n.
Proof.
  revert n. induction l as [|s l IH]; intros n; simpl; [reflexivity|].
  rewrite IH, f_set. reflexivity.
Qed.

Lemma foldl_frame (l : list Z) (n : node) (s : Z) :
  s ∉ l -> getClearance (foldl f n l) s = getClearance n s.
Proof.
  revert n. induction l as [|s0 l IH]; intros n Hs; simpl; [reflexivity|].
  apply not_elem_of_cons in Hs as [Hne Hs].
  rewrite IH by assumption. rewrite f_set.
  unfold getClearance, setClearance. simpl.
  rewrite lookup_insert_ne by congruence. reflexivity.
Qed.

Lemma foldl_getClearance (l : list Z) (n : node) (s : Z) :
  s ∈ l -> getClearance (foldl f n l) s = val (terrainType n) s.
Proof.
  revert n. induction l as [|s0 l IH]; intros n Hs; simpl.
  - inversion Hs.
  - destruct (decide (s ∈ l)) as [Hin|Hout].
    + rewrite IH by assumption. rewrite f_set. reflexivity.
    + apply elem_of_cons in Hs as [->|Hs]; [|contradiction].
      rewrite foldl_frame by assumption. rewrite f_set.
      unfold getClearance, setClearance. simpl.
      rewrite lookup_insert_eq. reflexivity.
Qed.
End Loop.

(** The three-way minimum as the code computes it. *)
Lemma min3_code (a b c : Z) :
  (let min := c in
   let min := if a <? min then a else min in
   let min := if b <? min then b else min in min)
  = Z.min a (Z.min b c).
Proof.
  simpl. destruct (Z.ltb_spec a c);
    [destruct (Z.ltb_spec b a)|destruct (Z.ltb_spec b c)]; lia.
Qed.

Lemma getNodeFromMap_ext (m : Map) (ns ns' : gmap (Z * Z) node) (x y : Z) :
  ns' !! (x, y) = ns !! (x, y) ->
  getNodeFromMap m ns' x y = getNodeFromMap m ns x y.
Proof. unfold getNodeFromMap. intros ->. reflexivity. Qed.

Lemma getNodeFromMap_inMap (m : Map) (ns : gmap (Z * Z) node) (x y : Z)
      (n : node) :
  getNodeFromMap m ns x y = Some n ->
  0 <= x < getMapWidth m /\ 0 <= y < getMapHeight m.
Proof.
  unfold getNodeFromMap, inMap. intros H.
  destruct (Z.leb_spec 0 x), (Z.ltb_spec x (getMapWidth m)),
           (Z.leb_spec 0 y), (Z.ltb_spec y (getMapHeight m));
    simpl in H; try discriminate; lia.
Qed.

Lemma clearance_rule_ext (m : Map) (ns ns' : gmap (Z * Z) node)
      (x y s : Z) :
  ns' !! (x + 1, y) = ns !! (x + 1, y) ->
  ns' !! (x, y + 1) = ns !! (x, y + 1) ->
  ns' !! (x + 1, y + 1) = ns !! (x + 1, y + 1) ->
  clearance_rule m ns' x y s = clearance_rule m ns x y s.
Proof.
  intros H1 H2 H3. unfold clearance_rule.
  rewrite !(getNodeFromMap_ext m ns ns') by assumption. reflexivity.
Qed.

Lemma annotated_ext (vts : list Z) (m : Map) (ns ns' : gmap (Z * Z) node)
      (x y : Z) :
  ns' !! (x, y) = ns !! (x, y) ->
  ns' !! (x + 1, y) = ns !! (x + 1, y) ->
  ns' !! (x, y + 1) = ns !! (x, y + 1) ->
  ns' !! (x + 1, y + 1) = ns !! (x + 1, y + 1) ->
  annotated vts m ns x y -> annotated vts m ns' x y.
Proof.
  intros H0 H1 H2 H3 Hok n Hn.
  rewrite (getNodeFromMap_ext m ns ns') in Hn by assumption.
  destruct (Hok n Hn) as [Ht Hc]. split; [assumption|].
  intros s Hs. rewrite (clearance_rule_ext m ns ns') by assumption. auto.
Qed.

Lemma bounded_ext (vts : list Z) (m : Map) (ns ns' : gmap (Z * Z) node)
      (x y : Z) :
  ns' !! (x, y) = ns !! (x, y) ->
  bounded vts m ns x y -> bounded vts m ns' x y.
Proof.
  intros H0 Hb n Hn.
  rewrite (getNodeFromMap_ext m ns ns') in Hn by assumption. auto.
Qed.

Section WithTerrains.
Variables kGround kTrees : Z.
Local Abbreviation vts := (validterrains kGround kTrees).

Variable m : Map.
Hypothesis width_int : getMapWidth m <= Int.INT_MAX.
Hypothesis height_int : getMapHeight m <= Int.INT_MAX.

(** A step of the loops changes the node of its own tile only. *)
Lemma annotate_tile_frame (x y : Z) (ns : gmap (Z * Z) node)
      (k : Z * Z) :
  k <> (x, y) -> annotate_tile kGround kTrees m x y ns !! k = ns !! k.
Proof.
  intros Hk. unfold annotate_tile.
  destruct (getNodeFromMap m ns x y); [|reflexivity].
  destruct (getNodeFromMap m ns (Int.add x 1) (Int.add y 1)),
           (getNodeFromMap m ns (Int.add x 1) y),
           (getNodeFromMap m ns x (Int.add y 1));
    rewrite lookup_insert_ne by congruence; reflexivity.
Qed.

(** A step of the loops annotates its tile according to the rule,
    provided the clearance values of the three successors are within
    their bounds. *)
Lemma annotate_tile_annotated (x y : Z) (ns : gmap (Z * Z) node) :
  bounded vts m ns (x + 1) y ->
  bounded vts m ns x (y + 1) ->
  bounded vts m ns (x + 1) (y + 1) ->
  annotated vts m (annotate_tile kGround kTrees m x y ns) x y /\
  bounded vts m (annotate_tile kGround kTrees m x y ns) x y.
Proof.
  intros Hb2 Hb3 Hb1.
  assert (Hrule : forall s,
             clearance_rule m (annotate_tile kGround kTrees m x y ns) x y s
             = clearance_rule m ns x y s).
  { intros s. apply clearance_rule_ext; apply annotate_tile_frame;
      intros [=]; lia. }
  cut (forall n', getNodeFromMap m
                    (annotate_tile kGround kTrees m x y ns) x y = Some n' ->
                  terrainType n' = getTerrainType m x y /\
                  forall s, s ∈ vts ->
                    getClearance n' s = clearance_rule m ns x y s /\
                    0 <= getClearance n' s <= getMapWidth m - x).
  { intros H. split; intros n' Hn'; destruct (H n' Hn') as [Ht Hc].
    - split; [assumption|]. intros s Hs. rewrite Hrule. by apply Hc.
    - intros s Hs. by apply Hc. }
  intros n' Hn'.
  destruct (getNodeFromMap_inMap _ _ _ _ _ Hn') as [Hx Hy].
  assert (Hx1 : Int.add x 1 = x + 1)
    by (apply wrap_small; unfold Int.INT_MAX in *; lia).
  assert (Hy1 : Int.add y 1 = y + 1)
    by (apply wrap_small; unfold Int.INT_MAX in *; lia).
  unfold getNodeFromMap in Hn'.
  destruct (inMap m x y) eqn:Hin; [|discriminate].
  unfold annotate_tile in Hn'. unfold getNodeFromMap at 1 in Hn'.
  rewrite Hin, Hx1, Hy1 in Hn'.
  destruct (ns !! (x, y)) as [n|] eqn:Hn; [|congruence].
  assert (Hcases :
    (exists a1 a2 a3,
        getNodeFromMap m ns (x + 1) (y + 1) = Some a1 /\
        getNodeFromMap m ns (x + 1) y = Some a2 /\
        getNodeFromMap m ns x (y + 1) = Some a3 /\
        n' = foldl (annotate_interior a1 a2 a3)
                   (setTerrainType n (getTerrainType m x y)) vts)
    \/ ((getNodeFromMap m ns (x + 1) (y + 1) = None \/
         getNodeFromMap m ns (x + 1) y = None \/
         getNodeFromMap m ns x (y + 1) = None) /\
        n' = foldl annotate_border
                   (setTerrainType n (getTerrainType m x y)) vts)).
  { destruct (getNodeFromMap m ns (x + 1) (y + 1)) as [a1|],
             (getNodeFromMap m ns (x + 1) y) as [a2|],
             (getNodeFromMap m ns x (y + 1)) as [a3|];
      rewrite lookup_insert_eq in Hn'; injection Hn' as <-;
      first [ left; exists a1, a2, a3; repeat split; reflexivity
            | right; split; [tauto | reflexivity] ]. }
  destruct Hcases as [(a1 & a2 & a3 & H1 & H2 & H3 & ->)|[Hmiss ->]].
  - pose (val := fun t s : Z =>
              if Z.land s t =? t
              then Int.add (Z.min (getClearance a2 s)
                             (Z.min (getClearance a3 s) (getClearance a1 s)))
                           1
              else 0).
    assert (Hf : forall n0 s, annotate_interior a1 a2 a3 n0 s
                      = setClearance n0 s (val (terrainType n0) s)).
    { intros n0 s. unfold annotate_interior, val.
      destruct (Z.land s (terrainType n0) =? terrainType n0);
        [|reflexivity].
      f_equal. f_equal. apply min3_code. }
    split; [rewrite (foldl_terrainType _ val Hf); reflexivity|].
    intros s Hs. rewrite (foldl_getClearance _ val Hf) by assumption.
    unfold clearance_rule, val. simpl. rewrite H1, H2, H3.
    destruct (Z.land s (getTerrainType m x y) =? getTerrainType m x y);
      [|lia].
    specialize (Hb1 a1 H1 s Hs). specialize (Hb2 a2 H2 s Hs).
    specialize (Hb3 a3 H3 s Hs).
    unfold Int.add. rewrite wrap_small by (unfold Int.INT_MAX in *; lia).
    lia.
  - pose (val := fun t s : Z => if Z.land s t =? t then 1 else 0).
    assert (Hf : forall n0 s, annotate_border n0 s
                      = setClearance n0 s (val (terrainType n0) s)).
    { intros n0 s. unfold annotate_border, val.
      destruct (Z.land s (terrainType n0) =? terrainType n0);
        reflexivity. }
    split; [rewrite (foldl_terrainType _ val Hf); reflexivity|].
    intros s Hs. rewrite (foldl_getClearance _ val Hf) by assumption.
    unfold clearance_rule, val. simpl.
    destruct (Z.land s (getTerrainType m x y) =? getTerrainType m x y);
      [|lia].
    split; [|lia].
    destruct Hmiss as [->|[->| ->]];
      repeat match goal with
             | |- context [match ?o with _ => _ end] => destruct o
             end; reflexivity.
Qed.

(** The loop over [y] changes column [x] below row [h] only. *)
Lemma annotate_column_frame (x : Z) (h : nat)
      (ns : gmap (Z * Z) node) (x' y' : Z) :
  x' <> x \/ Z.of_nat h <= y' ->
  annotate_column kGround kTrees m x h ns !! (x', y') = ns !! (x', y').
Proof.
  revert ns. induction h as [|h IH]; intros ns Hk; simpl; [reflexivity|].
  rewrite IH by lia. apply annotate_tile_frame. intros [=]; lia.
Qed.

Lemma annotate_column_annotated (x : Z) (h : nat)
      (ns : gmap (Z * Z) node) (y : Z) :
  (forall y', bounded vts m ns (x + 1) y') ->
  (forall y', Z.of_nat h <= y' -> bounded vts m ns x y') ->
  0 <= y < Z.of_nat h ->
  annotated vts m (annotate_column kGround kTrees m x h ns) x y /\
  bounded vts m (annotate_column kGround kTrees m x h ns) x y.
Proof.
  revert ns. induction h as [|h IH]; intros ns Hright Hbelow Hy; [lia|].
  simpl.
  destruct (annotate_tile_annotated x (Z.of_nat h) ns) as [Ha Hb];
    [apply Hright|apply Hbelow; lia|apply Hright|].
  destruct (decide (y = Z.of_nat h)) as [->|Hne].
  - split.
    + eapply annotated_ext; [..|exact Ha];
        apply annotate_column_frame; lia.
    + eapply bounded_ext; [|exact Hb]. apply annotate_column_frame; lia.
  - apply IH; [| |lia].
    + intros y'. eapply bounded_ext; [|apply Hright].
      apply annotate_tile_frame. intros [=]; lia.
    + intros y' Hy'. destruct (decide (y' = Z.of_nat h)) as [->|Hne'];
        [assumption|].
      eapply bounded_ext; [|apply Hbelow; lia].
      apply annotate_tile_frame. intros [=]; lia.
Qed.

Lemma annotate_column_bounded (x : Z) (h : nat)
      (ns : gmap (Z * Z) node) (y : Z) :
  (forall y', bounded vts m ns (x + 1) y') ->
  (forall y', Z.of_nat h <= y' -> bounded vts m ns x y') ->
  bounded vts m (annotate_column kGround kTrees m x h ns) x y.
Proof.
  intros Hright Hbelow.
  destruct (decide (0 <= y < Z.of_nat h)) as [Hy|Hy].
  - by apply annotate_column_annotated.
  - destruct (decide (Z.of_nat h <= y)) as [Hge|Hlt].
    + eapply bounded_ext; [|by apply Hbelow].
      apply annotate_column_frame. lia.
    + intros n Hn. apply getNodeFromMap_inMap in Hn. lia.
Qed.

(** The loop over [x] changes the columns below [w] only. *)
Lemma annotate_columns_frame (w : nat)
      (ns : gmap (Z * Z) node) (x' y' : Z) :
  Z.of_nat w <= x' ->
  annotate_columns kGround kTrees m w ns !! (x', y') = ns !! (x', y').
Proof.
  revert ns. induction w as [|w IH]; intros ns Hk; simpl; [reflexivity|].
  rewrite IH by lia. apply annotate_column_frame. lia.
Qed.

Lemma annotate_columns_annotated (w : nat)
      (ns : gmap (Z * Z) node) (x y : Z) :
  (forall x' y', Z.of_nat w <= x' -> bounded vts m ns x' y') ->
  0 <= x < Z.of_nat w -> 0 <= y < getMapHeight m ->
  annotated vts m (annotate_columns kGround kTrees m w ns) x y.
Proof.
  revert ns. induction w as [|w IH]; intros ns Hright Hx Hy; [lia|].
  simpl.
  assert (Hbelow : forall y',
             Z.of_nat (Z.to_nat (getMapHeight m)) <= y' ->
             bounded vts m ns (Z.of_nat w) y').
  { intros y' Hy' n Hn. apply getNodeFromMap_inMap in Hn. lia. }
  destruct (decide (x = Z.of_nat w)) as [->|Hne].
  - eapply annotated_ext;
      [..|apply (annotate_column_annotated (Z.of_nat w)
                   (Z.to_nat (getMapHeight m)) ns);
          [intros y'; apply Hright; lia|exact Hbelow|lia]];
      apply annotate_columns_frame; lia.
  - apply IH; [|lia|lia].
    intros x' y' Hx'. destruct (decide (x' = Z.of_nat w)) as [->|Hne'].
    + apply annotate_column_bounded; [|exact Hbelow].
      intros y''. apply Hright. lia.
    + eapply bounded_ext; [|apply Hright; lia].
      apply annotate_column_frame. lia.
Qed.

End WithTerrains.


Import Fixtures Fixtures.Ground.

(** The clearance values of the comment at the head of the source file:
    on the empty 5x4 map the tiles [x = (0,0)], [y = (3,2)] and
    [z = (4,3)] have clearance 4, 2 and 1. *)
Example clearance_of_source_comment :
  let ns := nodes (annotateMap kGround kTrees map5x4 graph5x4) in
  (fun n => getClearance n kGround) <$> getNodeFromMap map5x4 ns 0 0 = Some 4
  /\ (fun n => getClearance n kGround) <$> getNodeFromMap map5x4 ns 3 2
     = Some 2
  /\ (fun n => getClearance n kGround) <$> getNodeFromMap map5x4 ns 4 3
     = Some 1.
Proof. repeat split; vm_compute; reflexivity. Qed.

(** With an obstacle at [(1,1)] and trees at [(3,0)]: the tile [(0,0)]
    has clearance 1 (its successor [(1,1)] is missing), the ground tile
    [(2,0)] has clearance 1 for ground and 3 for ground and trees, and
    the trees tile [(3,0)] has clearance 0 for ground. *)
Example clearance_with_obstacle :
  let ns := nodes (annotateMap kGround kTrees map5x4' graph5x4') in
  (fun n => getClearance n kGround) <$> getNodeFromMap map5x4' ns 0 0
  = Some 1
  /\ getNodeFromMap map5x4' ns 1 1 = None
  /\ (fun n => getClearance n kGround) <$> getNodeFromMap map5x4' ns 2 0
     = Some 1
  /\ (fun n => getClearance n (Z.lor kGround kTrees))
       <$> getNodeFromMap map5x4' ns 2 0 = Some 3
  /\ (fun n => getClearance n kGround) <$> getNodeFromMap map5x4' ns 3 0
     = Some 0.
Proof. repeat split; vm_compute; reflexivity. Qed.


End AnnotateFacts.

(** ** addMissingEdges *)

Module MissingEdgesFacts.
Import AnnotatedMapAbstraction Fixtures Fixtures.Ground.

Lemma one_neq_sqrt2 : 1%R <> sqrt 2.
Proof.
  intros H. assert (H2 : (sqrt 2 * sqrt 2 = 2)%R) by (apply sqrt_sqrt; lra).
  rewrite <- H in H2. lra.
Qed.

Lemma addEdge_weight (g0 g : graph) (a b : Z) :
  (forall e, e ∈ edges g -> e ∈ edges g0 \/ getWeight e = 1%R) ->
  forall e, e ∈ edges (addEdge g (mkEdge a b 1%R)) ->
            e ∈ edges g0 \/ getWeight e = 1%R.
Proof.
  intros Hg e He. simpl in He. apply elem_of_app in He as [He|He]; [auto|].
  apply list_elem_of_singleton in He as ->. right. reflexivity.
Qed.

Lemma addMissingEdges_tile_weight (m : Map) (x y : Z) (g0 g : graph) :
  (forall e, e ∈ edges g -> e ∈ edges g0 \/ getWeight e = 1%R) ->
  forall e, e ∈ edges (addMissingEdges_tile m x y g) ->
            e ∈ edges g0 \/ getWeight e = 1%R.
Proof.
  unfold addMissingEdges_tile.
  destruct (getNodeFromMap m (nodes g) x y) as [n|]; [|auto].
  generalize [getNodeFromMap m (nodes g) (Int.sub x 1) y;
              getNodeFromMap m (nodes g) x (Int.sub y 1);
              getNodeFromMap m (nodes g) (Int.sub x 1) (Int.sub y 1)].
  intros nbs. revert g. induction nbs as [|nb nbs IH]; intros g Hg; simpl;
    [assumption|].
  apply IH. destruct nb as [nb|]; [|assumption].
  destruct (findEdge g (getNum n) (getNum nb)); [assumption|].
  apply addEdge_weight. assumption.
Qed.

(** Every edge that [addMissingEdges] creates has weight [1.0], whatever
    the relative position of its endpoints. *)
Lemma addMissingEdges_weight (m : Map) (g : graph) (e : edge) :
  e ∈ edges (addMissingEdges m g) -> e ∈ edges g \/ getWeight e = 1%R.
Proof.
  unfold addMissingEdges. revert e.
  assert (H0 : forall e, e ∈ edges g -> e ∈ edges g \/ getWeight e = 1%R)
    by auto.
  revert H0. generalize g at 1 3 as g'. generalize (upto (getMapWidth m)).
  intros xs. induction xs as [|x xs IH]; intros g' Hg'; simpl; [assumption|].
  apply IH. revert Hg'. generalize g' as g''.
  generalize (upto (getMapHeight m)).
  intros ys. induction ys as [|y ys IHy]; intros g'' Hg''; simpl;
    [assumption|].
  apply IHy. apply addMissingEdges_tile_weight. assumption.
Qed.

(** C4: on the 2x2 map above, whose nodes [(1,0)] (id 1) and [(0,1)]
    (id 2) are diagonal neighbours, the ground graph has no edge between
    them after [addMissingEdges]; and the edge it creates between the
    diagonal neighbours [(1,1)] (id 3) and [(0,0)] (id 0) has weight
    [1.0], which is not the square root of two. *)
Theorem addMissingEdges_misses_antidiagonal :
  let g := addMissingEdges map2x2 graph2x2 in
  getNodeFromMap map2x2 (nodes g) 1 0 = Some (mkNode 1 kGround ∅) /\
  getNodeFromMap map2x2 (nodes g) 0 1 = Some (mkNode 2 kTrees ∅) /\
  findEdge g 1 2 = None /\
  findEdge g 2 1 = None /\
  findEdge g 3 0 = Some (mkEdge 3 0 1%R) /\
  getWeight (mkEdge 3 0 1%R) <> sqrt 2.
Proof.
  repeat split; try (vm_compute; reflexivity).
  simpl. apply one_neq_sqrt2.
Qed.

End MissingEdgesFacts.

(** ** Endpoint insertion and removal *)

Module InsertRemoveFacts.
Import AnnotatedClusterAbstraction EndpointInvariant.

(** *** Lists and caches *)

Lemma filter_all {A} (f : A -> bool) (l : list A) :
  (forall x, x ∈ l -> f x = true) -> List.filter f l = l.
Proof.
  induction l as [|x l IH]; intros H; simpl; [reflexivity|].
  rewrite (H x) by apply list_elem_of_here.
  f_equal. apply IH. intros y Hy. apply H. by apply list_elem_of_further.
Qed.

Lemma filter_both {A} (f g : A -> bool) (l : list A) :
  List.filter f (List.filter g l) = List.filter (fun x => g x && f x) l.
Proof.
  induction l as [|x l IH]; simpl; [reflexivity|].
  destruct (g x); simpl; [destruct (f x)|]; rewrite IH; reflexivity.
Qed.

Lemma filter_same {A} (f g : A -> bool) (l : list A) :
  (forall x, x ∈ l -> f x = g x) -> List.filter f l = List.filter g l.
Proof.
  intros H. apply List.filter_ext_in. intros x Hx. apply H.
  by apply list_elem_of_In.
Qed.

Lemma elem_of_filter {A} (f : A -> bool) (l : list A) (x : A) :
  x ∈ List.filter f l <-> x ∈ l /\ f x = true.
Proof. rewrite !list_elem_of_In. apply List.filter_In. Qed.

(** Dropping the cached paths of a list of edges. *)
Lemma lookup_drop_in (es : list aedge) (c : gmap Z (list Z)) (e : aedge) :
  e ∈ es -> foldr (fun e c => delete (eId e) c) c es !! eId e = None.
Proof.
  induction es as [|e' es IH]; intros He; simpl; [inversion He|].
  destruct (decide (eId e' = eId e)) as [->|Hne].
  - apply lookup_delete_eq.
  - rewrite lookup_delete_ne by assumption. apply IH.
    apply elem_of_cons in He as [->|He]; [contradiction|assumption].
Qed.

Lemma lookup_drop_out (es : list aedge) (c : gmap Z (list Z)) (k : Z) :
  (forall e, e ∈ es -> eId e <> k) ->
  foldr (fun e c => delete (eId e) c) c es !! k = c !! k.
Proof.
  induction es as [|e' es IH]; intros He; simpl; [reflexivity|].
  rewrite lookup_delete_ne by (apply He, list_elem_of_here).
  apply IH. intros e Hin. apply He. by apply list_elem_of_further.
Qed.

Lemma setParent_reset (g : gnode) (a : Z) :
  gParent g = (-1) -> setParent (setParent g a) (-1) = g.
Proof. destruct g; simpl; intros ->; reflexivity. Qed.

Lemma during_refl (st : aca) : wf st -> during st st ∅.
Proof.
  intros (_ & _ & Hgp & Hn & Hnodes & Hedges & Hcache).
  constructor; try done; try lia.
  - apply filter_all. intros e _. apply bool_decide_eq_true_2. set_solver.
  - intros k [x Hx]. apply (Hnodes k x Hx).
  - intros e He. revert e He. by apply Forall_forall.
  - intros k [x Hx]. apply (Hcache k x Hx).
Qed.

Lemma during_done (st0 st : aca) :
  during st0 st ∅ ->
  ground st = ground st0 /\ absNodes st = absNodes st0 /\
  absEdges st = absEdges st0 /\ pathCache st = pathCache st0.
Proof.
  intros [].
  assert (Hout : forall e, outside ∅ e = true).
  { intros e. apply bool_decide_eq_true_2. set_solver. }
  repeat split.
  - apply map_eq. intros k. apply d_ground_frame0. set_solver.
  - apply map_eq. intros k. apply d_nodes_frame0. set_solver.
  - rewrite <- d_edges0. symmetry. apply filter_all. auto.
  - apply map_eq. intros k. apply d_cache_frame0.
    intros e _ H. rewrite Hout in H. discriminate.
Qed.

Lemma during_wf (st0 st : aca) :
  during st0 st ∅ -> startid st = -1 -> goalid st = -1 -> wf st.
Proof.
  intros D Hs Hg. destruct (during_done st0 st D) as (Hgr & _ & _ & Hc).
  destruct D. repeat split; try assumption.
  - rewrite Hgr. exact d_ground_parent0.
  - intros k x Hx. apply d_nodes_bound0. eauto.
  - apply Forall_forall. exact d_edges_bound0.
  - rewrite Hc. intros k x Hx. apply d_cache_bound0. eauto.
Qed.

Lemma outside_false (S : gset Z) (e : aedge) :
  outside S e = false <-> (eFrom e ∈ S) \/ (eTo e ∈ S).
Proof.
  unfold outside. rewrite bool_decide_eq_false.
  destruct (decide (eFrom e ∈ S)), (decide (eTo e ∈ S)); tauto.
Qed.

Lemma outside_true (S : gset Z) (e : aedge) :
  outside S e = true <-> (eFrom e ∉ S) /\ (eTo e ∉ S).
Proof. unfold outside. apply bool_decide_eq_true. Qed.

Section WithSearch.
Variable findPath : cluster -> Z -> Z -> Z -> Z -> option (list Z).

Lemma connect_ids (P p : Z) (c : cluster) (cap clr : Z) (st : aca)
      (q : Z) :
  startid (connect findPath P p c cap clr st q) = startid st /\
  goalid (connect findPath P p c cap clr st q) = goalid st.
Proof.
  unfold connect. destruct (absNodes st !! q); [|done].
  destruct (findPath c p _ cap clr); done.
Qed.

Lemma connect_during (st0 st : aca) (S : gset Z) (P p : Z) (c : cluster)
      (cap clr q : Z) :
  during st0 st S -> P ∈ S ->
  during st0 (connect findPath P p c cap clr st q) S.
Proof.
  intros D HP. unfold connect.
  destruct (absNodes st !! q) as [Q|] eqn:HQ; [|assumption].
  destruct (findPath c p (aParent Q) cap clr) as [pa|]; [|assumption].
  destruct D. constructor; simpl; try assumption; try lia.
  - rewrite List.filter_app, d_edges0. simpl.
    replace (outside S _) with false; [apply app_nil_r|].
    symmetry. apply outside_false. simpl. auto.
  - intros e He Hout. apply elem_of_app in He as [He|He]; [auto|].
    apply list_elem_of_singleton in He as ->. simpl.
    destruct (pathCache st0 !! nextEdgeId st) eqn:Hc; [|reflexivity].
    assert (nextEdgeId st < nextEdgeId st) by (apply d_cache_bound0; eauto).
    lia.
  - intros k Hk. rewrite lookup_insert_ne.
    + apply d_cache_frame0. intros e He. apply Hk.
      apply elem_of_app. auto.
    + apply (Hk (mkAEdge (nextEdgeId st) P q cap {[cap := clr]})).
      * apply elem_of_app. right. apply list_elem_of_here.
      * apply outside_false. simpl. auto.
  - intros e He. apply elem_of_app in He as [He|He]; [auto|].
    apply list_elem_of_singleton in He as ->. simpl. split.
    + apply d_nodes_bound0. by apply d_nodes_new0.
    + apply d_nodes_bound0. eauto.
  - intros k Hk. apply d_cache_bound0 in Hk. lia.
Qed.

Lemma connect_all_during (st0 : aca) (S : gset Z) (P p : Z) (c : cluster)
      (cap clr : Z) (qs : list Z) (st : aca) :
  during st0 st S -> P ∈ S ->
  during st0 (foldl (connect findPath P p c cap clr) st qs) S /\
  startid (foldl (connect findPath P p c cap clr) st qs) = startid st /\
  goalid (foldl (connect findPath P p c cap clr) st qs) = goalid st.
Proof.
  intros D HP. revert st D.
  induction qs as [|q qs IH]; intros st D; simpl; [done|].
  destruct (IH (connect findPath P p c cap clr st q)) as (D' & Hs & Hg).
  { by apply connect_during. }
  destruct (connect_ids P p c cap clr st q) as [Hs' Hg'].
  split; [assumption|split; congruence].
Qed.

Lemma registerParent_during (st0 st : aca) (S : gset Z) (cid P : Z) :
  during st0 st S -> during st0 (registerParent cid P st) S.
Proof. intros D. destruct D. constructor; simpl; assumption. Qed.

(** Creating the abstract node of a ground node that has none. *)
Lemma create_during (st0 st : aca) (S : gset Z) (pid : Z) (p : gnode)
      (sid gid : Z) :
  during st0 st S -> ground st !! pid = Some p -> gParent p < 0 ->
  (nextNodeId st ∉ S) /\
  during st0
    {| ground := <[pid := setParent p (nextNodeId st)]> (ground st);
       absNodes :=
         <[nextNodeId st := mkANode pid (gParentCluster p)]> (absNodes st);
       absEdges := absEdges st;
       clusters := clusters st;
       pathCache := pathCache st;
       startid := sid; goalid := gid;
       nextNodeId := nextNodeId st + 1;
       nextEdgeId := nextEdgeId st |}
    (S ∪ {[nextNodeId st]}).
Proof.
  intros D Hp Hneg. destruct D.
  set (a := nextNodeId st) in *.
  assert (Ha : a ∉ S).
  { intros Hin. destruct (d_nodes_new0 a Hin) as (_ & Hsome & _).
    apply d_nodes_bound0 in Hsome. lia. }
  assert (Hnone : absNodes st !! a = None).
  { destruct (absNodes st !! a) eqn:E; [|reflexivity].
    assert (a < a) by (apply d_nodes_bound0; eauto). lia. }
  assert (Hfresh : forall b P, b ∈ S -> absNodes st !! b = Some P ->
                               aParent P <> pid).
  { intros b P Hb HP Heq.
    destruct (d_ground_new0 b P Hb HP) as (g & _ & _ & Hg).
    rewrite Heq, Hp in Hg. injection Hg as ->. simpl in Hneg.
    destruct (d_nodes_new0 b Hb) as (_ & _ & ?). lia. }
  assert (Hp0 : ground st0 !! pid = Some p).
  { rewrite <- d_ground_frame0; [assumption|]. apply Hfresh. }
  assert (Hout : forall e, e ∈ absEdges st ->
                           outside (S ∪ {[a]}) e = outside S e).
  { intros e He. destruct (d_edges_bound0 e He) as [Hf Ht].
    unfold outside. apply bool_decide_ext.
    rewrite !not_elem_of_union, !not_elem_of_singleton.
    assert (eFrom e <> a) by lia. assert (eTo e <> a) by lia. tauto. }
  split; [assumption|].
  constructor; simpl; try assumption; try lia.
  - intros k Hk. apply not_elem_of_union in Hk as [Hk Hka].
    apply not_elem_of_singleton in Hka.
    rewrite lookup_insert_ne by congruence. auto.
  - intros k Hk. apply elem_of_union in Hk as [Hk|Hk].
    + destruct (d_nodes_new0 k Hk) as (H1 & H2 & H3).
      repeat split; [assumption| |assumption].
      rewrite lookup_insert_ne; [assumption|]. intros ->. contradiction.
    + apply elem_of_singleton in Hk as ->.
      repeat split; [| |assumption].
      * rewrite <- d_nodes_frame0; assumption.
      * rewrite lookup_insert_eq. eauto.
  - rewrite <- d_edges0. apply filter_same. assumption.
  - intros e He Ho. rewrite Hout in Ho by assumption. auto.
  - intros k Hk. apply d_cache_frame0. intros e He Ho. apply Hk; [assumption|].
    rewrite Hout; assumption.
  - intros b P Hb HP. apply elem_of_union in Hb as [Hb|Hb].
    + assert (b <> a) by (intros ->; contradiction).
      rewrite lookup_insert_ne in HP by congruence.
      destruct (d_ground_new0 b P Hb HP) as (g & H1 & H2 & H3).
      exists g. repeat split; [assumption..|].
      rewrite lookup_insert_ne; [assumption|].
      intros Heq. apply (Hfresh b P Hb HP). congruence.
    + apply elem_of_singleton in Hb as ->.
      rewrite lookup_insert_eq in HP. injection HP as <-. simpl.
      exists p. repeat split; [assumption| |apply lookup_insert_eq].
      specialize (d_ground_parent0 pid p Hp0). lia.
  - intros k Hk.
    assert (pid <> k).
    { intros <-. apply (Hk a (mkANode pid (gParentCluster p))).
      - apply elem_of_union. right. by apply elem_of_singleton.
      - apply lookup_insert_eq.
      - reflexivity. }
    rewrite lookup_insert_ne by assumption.
    apply d_ground_frame0. intros b P Hb HP. apply (Hk b P).
    + apply elem_of_union. by left.
    + rewrite lookup_insert_ne; [assumption|]. intros <-. contradiction.
  - intros k Hk. destruct (decide (k = a)) as [->|Hne]; [lia|].
    rewrite lookup_insert_ne in Hk by congruence.
    apply d_nodes_bound0 in Hk. lia.
  - intros e He. destruct (d_edges_bound0 e He). lia.
Qed.

Lemma insertEndpoint_during (st0 st : aca) (S : gset Z)
      (k : endpointKind) (pid cap clr : Z) :
  during st0 st S ->
  (during st0 (insertEndpoint findPath k pid cap clr st) S /\
   startid (insertEndpoint findPath k pid cap clr st) = startid st /\
   goalid (insertEndpoint findPath k pid cap clr st) = goalid st)
  \/
  ((nextNodeId st ∉ S) /\ 0 <= nextNodeId st /\
   during st0 (insertEndpoint findPath k pid cap clr st)
          (S ∪ {[nextNodeId st]}) /\
   startid (insertEndpoint findPath k pid cap clr st)
   = match k with Start => nextNodeId st | Goal => startid st end /\
   goalid (insertEndpoint findPath k pid cap clr st)
   = match k with Start => goalid st | Goal => nextNodeId st end).
Proof.
  intros D. unfold insertEndpoint.
  destruct (ground st !! pid) as [p|] eqn:Hp; [|left; done].
  destruct (Z.leb_spec 0 (gParent p)) as [Hge|Hlt]; [left; done|].
  right.
  destruct (create_during st0 st S pid p
              (match k with Start => nextNodeId st | Goal => startid st end)
              (match k with Start => goalid st | Goal => nextNodeId st end)
              D Hp Hlt) as [Ha D1].
  split; [assumption|]. split; [apply (d_next_node _ _ _ D)|].
  destruct (clusters st !! gParentCluster p) as [c|]; [|done].
  match goal with
  | |- context [foldl ?f ?s ?l] =>
      destruct (connect_all_during st0 (S ∪ {[nextNodeId st]})
                  (nextNodeId st) pid c cap clr l s D1) as (D2 & Hs & Hg)
  end.
  { apply elem_of_union. right. by apply elem_of_singleton. }
  split; [by apply registerParent_during|].
  simpl. rewrite Hs, Hg. done.
Qed.

(** Removing a transient node. *)
Lemma removeEndpoint_during (st0 st : aca) (S : gset Z) (a : Z) :
  during st0 st S -> a ∈ S ->
  during st0 (removeEndpoint a st) (S ∖ {[a]}) /\
  startid (removeEndpoint a st) = startid st /\
  goalid (removeEndpoint a st) = goalid st.
Proof.
  intros D Ha. unfold removeEndpoint.
  destruct (d_nodes_new _ _ _ D a Ha) as (Ha0 & [P HP] & Hann).
  rewrite HP. split; [|done].
  destruct (d_ground_new _ _ _ D a P Ha HP) as (g & Hg0 & Hgp & Hg).
  destruct D.
  assert (Hinj : forall b Q, b ∈ S -> b <> a -> absNodes st !! b = Some Q ->
                             aParent Q <> aParent P).
  { intros b Q Hb Hne HQ Heq.
    destruct (d_ground_new0 b Q Hb HQ) as (g' & _ & _ & Hg').
    rewrite Heq, Hg in Hg'.
    assert (Hab : gParent (setParent g a) = gParent (setParent g' b))
      by congruence.
    simpl in Hab. congruence. }
  assert (Hout : forall e,
             outside (S ∖ {[a]}) e = false ->
             outside S e = false).
  { intros e. rewrite !outside_false. set_solver. }
  constructor; simpl; try assumption.
  - intros k Hk. destruct (decide (k = a)) as [->|Hne].
    + rewrite lookup_delete_eq. congruence.
    + rewrite lookup_delete_ne by congruence. apply d_nodes_frame0.
      set_solver.
  - intros k Hk. apply elem_of_difference in Hk as [Hk Hka].
    apply not_elem_of_singleton in Hka.
    rewrite lookup_delete_ne by congruence. auto.
  - rewrite filter_both, <- d_edges0. apply filter_same.
    intros e _. unfold incident, outside.
    destruct (Z.eqb_spec (eFrom e) a), (Z.eqb_spec (eTo e) a); simpl;
      try (symmetry; apply bool_decide_eq_false_2; set_solver).
    apply bool_decide_ext. set_solver.
  - intros e He Ho. apply elem_of_filter in He as [He _]. auto.
  - intros k Hk.
    destruct (decide (k ∈ (eId <$> List.filter (incident a) (absEdges st))))
      as [Hin|Hno].
    + apply list_elem_of_fmap in Hin as (e & -> & He).
      rewrite lookup_drop_in by assumption.
      apply elem_of_filter in He as [He Hi].
      symmetry. apply d_cache_new0; [assumption|].
      apply outside_false. unfold incident in Hi.
      apply orb_true_iff in Hi as [Hi|Hi]; apply Z.eqb_eq in Hi;
        rewrite Hi; auto.
    + rewrite lookup_drop_out.
      * apply d_cache_frame0. intros e He Ho Hid.
        destruct (incident a e) eqn:Hi.
        { apply Hno. subst k. apply list_elem_of_fmap_2.
          apply elem_of_filter. auto. }
        apply (Hk e); [apply elem_of_filter; rewrite Hi; auto| |assumption].
        apply outside_false. apply outside_false in Ho.
        unfold incident in Hi. apply orb_false_iff in Hi as [H1 H2].
        apply Z.eqb_neq in H1, H2. set_solver.
      * intros e He Hid. apply Hno. subst k.
        by apply list_elem_of_fmap_2.
  - intros b Q Hb HQ. apply elem_of_difference in Hb as [Hb Hba].
    apply not_elem_of_singleton in Hba.
    rewrite lookup_delete_ne in HQ by congruence.
    destruct (d_ground_new0 b Q Hb HQ) as (g' & H1 & H2 & H3).
    exists g'. repeat split; [assumption..|].
    rewrite lookup_alter_ne; [assumption|].
    intros Heq. apply (Hinj b Q Hb Hba HQ). congruence.
  - intros k Hk. destruct (decide (aParent P = k)) as [<-|Hne].
    + rewrite lookup_alter_eq, Hg. simpl.
      rewrite setParent_reset by assumption. congruence.
    + rewrite lookup_alter_ne by assumption.
      apply d_ground_frame0. intros b Q Hb HQ.
      destruct (decide (b = a)) as [->|Hba]; [congruence|].
      apply (Hk b Q); [set_solver|]. rewrite lookup_delete_ne; congruence.
  - intros k Hk. apply d_nodes_bound0.
    destruct (decide (k = a)) as [->|Hne]; [eauto|].
    rewrite lookup_delete_ne in Hk; congruence.
  - intros e He. apply elem_of_filter in He as [He _]. auto.
Qed.

Lemma insertEndpoint_recorded (st0 st : aca) (k : endpointKind)
      (pid cap clr : Z) :
  during st0 st (recorded (startid st) (goalid st)) ->
  match k with Start => startid st | Goal => goalid st end = -1 ->
  during st0 (insertEndpoint findPath k pid cap clr st)
         (recorded (startid (insertEndpoint findPath k pid cap clr st))
                   (goalid (insertEndpoint findPath k pid cap clr st))).
Proof.
  intros D Hk.
  destruct (insertEndpoint_during st0 st _ k pid cap clr D)
    as [(D' & -> & ->)|(Ha & Hpos & D' & -> & ->)]; [assumption|].
  replace (recorded _ _)
    with (recorded (startid st) (goalid st) ∪ {[nextNodeId st]});
    [assumption|].
  unfold recorded. destruct k; rewrite Hk;
    repeat case_decide; try lia; set_solver.
Qed.

Lemma removeEndpoint_twice (a : Z) (st : aca) :
  removeEndpoint a (removeEndpoint a st) = removeEndpoint a st.
Proof.
  unfold removeEndpoint at 2 3.
  destruct (absNodes st !! a) eqn:Ha.
  - unfold removeEndpoint. simpl. rewrite lookup_delete_eq. reflexivity.
  - unfold removeEndpoint. rewrite Ha. reflexivity.
Qed.

Lemma during_ids (st0 st : aca) (S : gset Z) (sid gid : Z) :
  during st0 st S ->
  during st0
    {| ground := ground st; absNodes := absNodes st;
       absEdges := absEdges st; clusters := clusters st;
       pathCache := pathCache st; startid := sid; goalid := gid;
       nextNodeId := nextNodeId st; nextEdgeId := nextEdgeId st |} S.
Proof. intros D. destruct D. constructor; simpl; assumption. Qed.

Lemma removeStartAndGoal_during (st0 st : aca) :
  during st0 st (recorded (startid st) (goalid st)) ->
  during st0 (removeStartAndGoalNodesFromAbstractGraph st) ∅.
Proof.
  intros D. unfold removeStartAndGoalNodesFromAbstractGraph.
  apply during_ids. unfold recorded in D.
  destruct (Z.eqb_spec (startid st) (-1)) as [Hs|Hs].
  - rewrite decide_True in D by assumption.
    destruct (Z.eqb_spec (goalid st) (-1)) as [Hg|Hg].
    + rewrite decide_True in D by assumption.
      replace (∅ : gset Z) with (∅ ∪ ∅ : gset Z) by set_solver.
      assumption.
    + rewrite decide_False in D by assumption.
      destruct (removeEndpoint_during st0 st _ (goalid st) D)
        as (D' & _ & _); [set_solver|].
      replace (∅ : gset Z) with ((∅ ∪ {[goalid st]}) ∖ {[goalid st]} : gset Z)
        by set_solver.
      assumption.
  - rewrite decide_False in D by assumption.
    destruct (removeEndpoint_during st0 st _ (startid st) D)
      as (D' & _ & Hgid); [set_solver|].
    rewrite Hgid.
    destruct (Z.eqb_spec (goalid st) (-1)) as [Hg|Hg].
    + rewrite decide_True in D' by assumption.
      replace (∅ : gset Z) with (({[startid st]} ∪ ∅) ∖ {[startid st]} : gset Z)
        by set_solver.
      assumption.
    + rewrite decide_False in D' by assumption.
      destruct (decide (goalid st = startid st)) as [Heq|Hne].
      * rewrite Heq, removeEndpoint_twice.
        rewrite Heq in D'.
        replace (∅ : gset Z)
          with (({[startid st]} ∪ {[startid st]}) ∖ {[startid st]} : gset Z)
          by set_solver.
        assumption.
      * destruct (removeEndpoint_during st0 _ _ (goalid st) D')
          as (D'' & _ & _); [set_solver|].
        replace (∅ : gset Z)
          with ((({[startid st]} ∪ {[goalid st]}) ∖ {[startid st]})
                  ∖ {[goalid st]} : gset Z)
          by set_solver.
        assumption.
Qed.

End WithSearch.

Lemma inserted_during
      (findPath : cluster -> Z -> Z -> Z -> Z -> option (list Z))
      (st st' : aca) (start goal : option Z) (capability clearance : Z) :
  wf st ->
  insertStartAndGoalNodesIntoAbstractGraph findPath st start goal
    capability clearance = inr st' ->
  during st st' (recorded (startid st') (goalid st')).
Proof.
  intros Hwf Hins.
  assert (Hsid : startid st = -1) by apply Hwf.
  assert (Hgid : goalid st = -1) by apply Hwf.
  unfold insertStartAndGoalNodesIntoAbstractGraph in Hins.
  destruct start as [s|]; [|discriminate].
  destruct goal as [g|]; [|discriminate].
  destruct (ground st !! s) as [sn|]; [|discriminate].
  destruct (ground st !! g) as [gn|]; [|discriminate].
  destruct (_ || _); [discriminate|].
  destruct (_ || _); [discriminate|].
  injection Hins as <-.
  assert (D0 : during st st (recorded (startid st) (goalid st))).
  { unfold recorded. rewrite Hsid, Hgid.
    simpl. replace (∅ ∪ ∅ : gset Z) with (∅ : gset Z) by set_solver.
    by apply during_refl. }
  apply (insertEndpoint_recorded findPath st st Start s capability
           clearance) in D0; [|apply Hsid].
  apply (insertEndpoint_recorded findPath st _ Goal g capability
           clearance) in D0; [assumption|].
  destruct (insertEndpoint_during findPath st st ∅ Start s capability
              clearance (during_refl st Hwf))
    as [(_ & _ & ->)|(_ & _ & _ & _ & ->)]; apply Hgid.
Qed.

(** C3: when the insertion of a start and a goal node succeeds in a state
    of the engine between two queries, the removal that follows restores
    the abstract nodes, the abstract edges, the path cache and every
    ground node (hence every [parent] label), so their counts are the
    ones before the insertion, and [startid] and [goalid] are [-1] again,
    as they were. *)
Theorem insert_remove_restores
        (findPath : cluster -> Z -> Z -> Z -> Z -> option (list Z))
        (st st' : aca) (start goal : option Z) (capability clearance : Z) :
  wf st ->
  insertStartAndGoalNodesIntoAbstractGraph findPath st start goal
    capability clearance = inr st' ->
  let st'' := removeStartAndGoalNodesFromAbstractGraph st' in
  size (absNodes st'') = size (absNodes st) /\
  length (absEdges st'') = length (absEdges st) /\
  getPathCacheSize st'' = getPathCacheSize st /\
  (forall k, gParent <$> ground st'' !! k = gParent <$> ground st !! k) /\
  startid st'' = startid st /\ goalid st'' = goalid st /\
  startid st'' = -1 /\ goalid st'' = -1 /\
  absNodes st'' = absNodes st /\ absEdges st'' = absEdges st /\
  pathCache st'' = pathCache st /\ ground st'' = ground st.
Proof.
  intros Hwf Hins st''.
  assert (Hsid : startid st = -1) by apply Hwf.
  assert (Hgid : goalid st = -1) by apply Hwf.
  assert (D : during st st' (recorded (startid st') (goalid st')))
    by (eapply inserted_during; eassumption).
  apply removeStartAndGoal_during in D. fold st'' in D.
  apply during_done in D as (Hg & Hn & He & Hc).
  unfold getPathCacheSize.
  rewrite Hg, Hn, He, Hc, Hsid, Hgid.
  repeat split; reflexivity.
Qed.

(** The state after a query is again a state between two queries. *)
Lemma insert_remove_wf
      (findPath : cluster -> Z -> Z -> Z -> Z -> option (list Z))
      (st st' : aca) (start goal : option Z) (capability clearance : Z) :
  wf st ->
  insertStartAndGoalNodesIntoAbstractGraph findPath st start goal
    capability clearance = inr st' ->
  wf (removeStartAndGoalNodesFromAbstractGraph st').
Proof.
  intros Hwf Hins.
  apply (during_wf st); [|reflexivity..].
  apply removeStartAndGoal_during.
  eapply inserted_during; eassumption.
Qed.

Import Fixtures Fixtures.Engine.

(** Inserting the first two nodes of [corridor] creates two abstract
    nodes, three abstract edges and three cached paths. *)
Example corridor_insertion :
  match insertStartAndGoalNodesIntoAbstractGraph straight corridor
          (Some 0) (Some 1) kGround 1 with
  | inr st => Some (startid st, goalid st, size (absNodes st),
                    length (absEdges st), getPathCacheSize st)
  | inl _ => None
  end = Some (1, 2, 3%nat, 3%nat, 3%nat).
Proof. vm_compute. reflexivity. Qed.

(** A ground node that already has an abstract node is reused. *)
Example corridor_reuse :
  match insertStartAndGoalNodesIntoAbstractGraph straight corridor
          (Some 2) (Some 1) kGround 1 with
  | inr st => Some (startid st, goalid st, size (absNodes st))
  | inl _ => None
  end = Some (-1, 1, 2%nat).
Proof. vm_compute. reflexivity. Qed.

(** The theorem on the insertion of the first two nodes of [corridor]. *)
Lemma insert_remove_restores_witness :
  wf corridor /\
  exists st',
    insertStartAndGoalNodesIntoAbstractGraph straight corridor
      (Some 0) (Some 1) kGround 1 = inr st' /\
    size (absNodes (removeStartAndGoalNodesFromAbstractGraph st'))
    = size (absNodes corridor) /\
    startid (removeStartAndGoalNodesFromAbstractGraph st') = -1.
Proof.
  assert (Hwf : wf corridor).
  { apply (bool_decide_unpack _). vm_compute. exact I. }
  split; [exact Hwf|].
  destruct (insertStartAndGoalNodesIntoAbstractGraph straight corridor
              (Some 0) (Some 1) kGround 1) as [err|st'] eqn:Hi;
    [vm_compute in Hi; discriminate Hi|].
  exists st'. split; [reflexivity|].
  split; apply (insert_remove_restores straight corridor st'
                  (Some 0) (Some 1) kGround 1 Hwf Hi).
Defined.

End InsertRemoveFacts.

(** ** Transition dominance *)

Module DominanceFacts.
Import AnnotatedClusterAbstraction.

Lemma sameClusterPair_sym (st : aca) (e1 e2 : aedge) :
  sameClusterPair st e1 e2 = sameClusterPair st e2 e1.
Proof.
  unfold sameClusterPair. f_equal; apply bool_decide_ext; split; congruence.
Qed.

(** An edge that is admissible for a clearance is admissible for every
    smaller one. *)
Lemma annotatedEdgeExists_monotone (st : aca) (u v capability k k' : Z) :
  k' <= k ->
  annotatedEdgeExists st u v capability k = true ->
  annotatedEdgeExists st u v capability k' = true.
Proof.
  intros Hk. unfold annotatedEdgeExists. rewrite !existsb_exists.
  intros (e & He & Hadm). exists e. split; [assumption|].
  apply andb_true_iff in Hadm as [Hends Hclr]. apply andb_true_iff.
  split; [assumption|].
  destruct (Z.geb_spec (getEdgeClearance e capability) k);
    [|discriminate].
  destruct (Z.geb_spec (getEdgeClearance e capability) k');
    [reflexivity|lia].
Qed.

(** Two edges that weakly dominate each other have the same profile. *)
Lemma mutual_dominance_same_profile (st : aca) (a b : aedge) :
  dominates st a b = true -> dominates st b a = true ->
  eCapability a = eCapability b /\ ownClearance a = ownClearance b.
Proof.
  unfold dominates. rewrite !andb_true_iff.
  intros [[[Hc1 Hk1] _] _] [[[Hc2 Hk2] _] _].
  apply Z.eqb_eq in Hc1, Hc2.
  destruct (Z.geb_spec (ownClearance a) (ownClearance b)); [|discriminate].
  destruct (Z.geb_spec (ownClearance b) (ownClearance a)); [|discriminate].
  split; [|lia]. rewrite <- Hc1. rewrite Z.land_comm. exact Hc2.
Qed.

(** Whatever edge is reported in a tie, the result for [(e1,e2)] differs
    from the result for [(e2,e1)] at most when the two edges weakly
    dominate each other, where the two results are the two choices of the
    tie-break. *)
Lemma findDominantTransition_order
      (tieBreak : aedge -> aedge -> aedge) (st : aca)
      (e1 e2 : option aedge) :
  findDominantTransition tieBreak st e1 e2
  = findDominantTransition tieBreak st e2 e1
  \/ exists a b,
       e1 = Some a /\ e2 = Some b
       /\ dominates st a b = true /\ dominates st b a = true
       /\ findDominantTransition tieBreak st e1 e2 = Some (tieBreak a b)
       /\ findDominantTransition tieBreak st e2 e1 = Some (tieBreak b a).
Proof.
  destruct e1 as [a|], e2 as [b|]; try (left; reflexivity). simpl.
  rewrite (andb_comm (validEndpoints st b)), (sameClusterPair_sym st b a).
  destruct (negb (validEndpoints st a && validEndpoints st b));
    [left; reflexivity|].
  destruct (negb (sameClusterPair st a b)); [left; reflexivity|].
  destruct (dominates st a b) eqn:Hab, (dominates st b a) eqn:Hba;
    try (left; reflexivity).
  right. exists a, b. repeat split; first [assumption|reflexivity].
Qed.

Import Fixtures Fixtures.Engine.

(** The expectations of the test suite on [findDominantTransition]. *)

Example dominant_null :
  findDominantTransition lowerId emptyEngine None None = None
  /\ findDominantTransition lowerId emptyEngine
       (Some (annotatedEdge 0 0 1 0 0)) None = None
  /\ findDominantTransition lowerId emptyEngine
       None (Some (annotatedEdge 0 0 1 0 0)) = None.
Proof. repeat split; reflexivity. Qed.

Example dominant_no_corridor_dominance :
  let st := dominanceData 0 1 0 1 kGround 2 (Z.lor kGround kTrees) 3 in
  let e1 := annotatedEdge 0 0 1 kGround 2 in
  let e2 := annotatedEdge 1 2 3 (Z.lor kGround kTrees) 3 in
  findDominantTransition lowerId st (Some e1) (Some e2) = None
  /\ findDominantTransition lowerId st (Some e2) (Some e1) = None.
Proof. split; vm_compute; reflexivity. Qed.

Example dominant_invalid_endpoints :
  findDominantTransition lowerId emptyEngine
    (Some (annotatedEdge 0 0 1 kGround 3))
    (Some (annotatedEdge 1 2 3 (Z.lor kGround kTrees) 2)) = None.
Proof. vm_compute. reflexivity. Qed.

Example dominant_other_clusters :
  let st := dominanceData 0 1 2 3 kGround 3 (Z.lor kGround kTrees) 2 in
  findDominantTransition lowerId st
    (Some (annotatedEdge 0 0 1 kGround 3))
    (Some (annotatedEdge 1 2 3 (Z.lor kGround kTrees) 2)) = None.
Proof. vm_compute. reflexivity. Qed.

Example dominant_same_capability :
  let st := dominanceData 0 1 0 1 kGround 3 kGround 1 in
  let e1 := annotatedEdge 0 0 1 kGround 3 in
  let e2 := annotatedEdge 1 2 3 kGround 1 in
  findDominantTransition lowerId st (Some e1) (Some e2) = Some e1
  /\ findDominantTransition lowerId st (Some e2) (Some e1) = Some e1.
Proof. split; vm_compute; reflexivity. Qed.

Example dominant_intersecting_capabilities :
  let st := dominanceData 0 1 0 1 kGround 3 (Z.lor kGround kTrees) 3 in
  let e1 := annotatedEdge 0 0 1 kGround 3 in
  let e2 := annotatedEdge 1 2 3 (Z.lor kGround kTrees) 3 in
  findDominantTransition lowerId st (Some e1) (Some e2) = Some e1
  /\ findDominantTransition lowerId st (Some e2) (Some e1) = Some e1.
Proof. split; vm_compute; reflexivity. Qed.

(** Two edges with the same profile dominate each other; the tie-break
    [lowerId] reports the first one, whatever the order. *)
Example dominant_tie :
  let st := dominanceData 0 1 0 1 kGround 3 kGround 3 in
  let e1 := annotatedEdge 0 0 1 kGround 3 in
  let e2 := annotatedEdge 1 2 3 kGround 3 in
  dominates st e1 e2 = true /\ dominates st e2 e1 = true
  /\ findDominantTransition lowerId st (Some e1) (Some e2) = Some e1
  /\ findDominantTransition lowerId st (Some e2) (Some e1) = Some e1.
Proof. repeat split; vm_compute; reflexivity. Qed.

(** With the tie-break that reports its first argument the same two
    edges give a result that depends on their order; the expectations
    of the test suite, none of which is a tie, hold for it as well. *)
Example dominant_tie_first_argument :
  let st := dominanceData 0 1 0 1 kGround 3 kGround 3 in
  let e1 := annotatedEdge 0 0 1 kGround 3 in
  let e2 := annotatedEdge 1 2 3 kGround 3 in
  findDominantTransition TieBreaks.firstArgument st (Some e1) (Some e2)
  = Some e1
  /\ findDominantTransition TieBreaks.firstArgument st (Some e2) (Some e1)
     = Some e2
  /\ e1 <> e2.
Proof. split; [|split]; [vm_compute; reflexivity..|discriminate]. Qed.

Example dominant_same_capability_first_argument :
  let st := dominanceData 0 1 0 1 kGround 3 kGround 1 in
  let e1 := annotatedEdge 0 0 1 kGround 3 in
  let e2 := annotatedEdge 1 2 3 kGround 1 in
  findDominantTransition TieBreaks.firstArgument st (Some e1) (Some e2)
  = Some e1
  /\ findDominantTransition TieBreaks.firstArgument st (Some e2) (Some e1)
     = Some e1.
Proof. split; vm_compute; reflexivity. Qed.

End DominanceFacts.

(** ** Cluster decomposition *)

Module ClusterFacts.
Import AnnotatedClusterAbstraction.

Lemma buildClusters_unfold (W H S : Z) :
  buildClusters W H S
  = (Z.of_nat <$> seq 0 (Z.to_nat (clustersAlong H S))) ≫= (fun j =>
    (Z.of_nat <$> seq 0 (Z.to_nat (clustersAlong W S))) ≫= (fun i =>
    [clusterAt W H S i j])).
Proof. reflexivity. Qed.

Lemma length_bind_const {A B} (f : A -> list B) (n : nat) (l : list A) :
  (forall x, length (f x) = n) -> length (l ≫= f) = (length l * n)%nat.
Proof.
  intros Hf. induction l as [|x l IH]; [reflexivity|].
  rewrite bind_cons, length_app, Hf, IH. reflexivity.
Qed.

Lemma length_buildClusters (W H S : Z) :
  length (buildClusters W H S)
  = (Z.to_nat (clustersAlong H S) * Z.to_nat (clustersAlong W S))%nat.
Proof.
  rewrite buildClusters_unfold.
  rewrite (length_bind_const _ (Z.to_nat (clustersAlong W S))).
  - rewrite length_fmap, length_seq. reflexivity.
  - intros j. rewrite (length_bind_const _ 1%nat) by reflexivity.
    rewrite length_fmap, length_seq. lia.
Qed.






End ClusterFacts.

(** ** getPath *)

Module GetPathFacts.
Import Graph AnnotatedHierarchicalAStar.

Section GetPath.
Variables aca error : Type.
Variable insert : aca -> node -> node -> error + aca.
Variable remove : aca -> aca.
Variable kParent : aca -> node -> Z.
Variable getNode : aca -> Z -> option node.
Variable getAbstractPath :
  aca -> option node -> option node -> option (list node).
Variable findAnnotatedEdge : aca -> node -> node -> Z -> Z -> option edge.
Variable getPathFromCache : aca -> option edge -> option (list node).
Variables capability clearance : Z.

Local Abbreviation run :=
  (getPath aca error insert remove kParent getNode getAbstractPath
           findAnnotatedEdge getPathFromCache capability clearance).

(** The loop ends abnormally only by [exit(-1)] or a null pointer. *)
Lemma stitch_abnormal (a : aca) (tmp thepath : list node)
      (o : outcome error) :
  stitch aca error findAnnotatedEdge getPathFromCache capability clearance
         a thepath tmp = inl o ->
  o = Exited \/ o = Crashed.
Proof.
  revert thepath. induction tmp as [|n tmp IH]; intros thepath; simpl;
    [discriminate|].
  destruct tmp as [|n' tmp']; [discriminate|].
  destruct (findAnnotatedEdge a n n' capability clearance) as [e|];
    [|intros [= <-]; auto].
  destruct (getPathFromCache a (Some e)) as [cachedpath|];
    [|intros [= <-]; auto].
  destruct (last thepath) as [t|]; [|intros [= <-]; auto].
  destruct (if negb (getFrom e =? getNum n) then rev cachedpath
            else cachedpath) as [|c cnext]; [intros [= <-]; auto|].
  destruct (getNum t =? getNum c); [apply IH|intros [= <-]; auto].
Qed.

(** When [getPath] returns a path, the endpoints have been removed. *)
Lemma getPath_success_removes (aMap a' : aca) (from to : node)
      (p : list node) (evs : list event) :
  run aMap from to = (Returned (Some p), a', evs) ->
  evs = [Inserted; Removed] /\
  exists a, insert aMap from to = inr a /\ a' = remove a.
Proof.
  unfold getPath.
  destruct (insert aMap from to) as [err|a]; cbv beta iota zeta;
    [intros Hr; discriminate Hr|].
  destruct (getAbstractPath a _ _) as [[|n0 [|n1 rest]]|];
    cbv beta iota zeta; try (intros Hr; discriminate Hr).
  destruct (getPathFromCache a _) as [thepath|]; cbv beta iota zeta;
    [|intros Hr; discriminate Hr].
  destruct (stitch _ _ _ _ _ _ _ _ _) as [o|q] eqn:Hst;
    cbv beta iota zeta.
  - apply stitch_abnormal in Hst as [-> | ->]; intros Hr; discriminate Hr.
  - intros [= _ <- <-]. eauto.
Qed.

(** When the abstract search finds no path, [getPath] returns null
    straight after the insertion: the abstraction it leaves behind is
    the one with the endpoints inserted, and the removal is not run. *)
Lemma getPath_search_failure (aMap a : aca) (from to : node) :
  insert aMap from to = inr a ->
  getAbstractPath a (getNode a (kParent a from)) (getNode a (kParent a to))
  = None ->
  run aMap from to = (Returned None, a, [Inserted]).
Proof. intros Hi Hs. unfold getPath. rewrite Hi, Hs. reflexivity. Qed.

End GetPath.

Import AnnotatedClusterAbstraction Fixtures Fixtures.Engine.

(** C1: a query between the two nodes of [engine], for which the abstract
    search finds no path, returns null without running the removal: the
    two abstract nodes inserted for the endpoints stay in the abstract
    graph, [startid] and [goalid] stay set and the [parent] label of the
    start node stays set, whereas the removal would have restored the
    abstraction. *)
Theorem getPath_search_failure_skips_removal :
  exists a,
    getPath aca error insert removeStartAndGoalNodesFromAbstractGraph
            kParent Engine.getNode abstractSearch
            Engine.findAnnotatedEdge cachedPath kGround 1
            engine (mkNode 0) (mkNode 1)
    = (Returned None, a, [Inserted]) /\
    size (absNodes a) = 2%nat /\ size (absNodes engine) = 0%nat /\
    startid a = 0 /\ goalid a = 1 /\
    kParent a (mkNode 0) = 0 /\ kParent engine (mkNode 0) = -1 /\
    absNodes (removeStartAndGoalNodesFromAbstractGraph a) = absNodes engine.
Proof.
  destruct (insert engine (mkNode 0) (mkNode 1)) as [err|a] eqn:Hi;
    [vm_compute in Hi; discriminate|].
  exists a. split.
  - apply getPath_search_failure; [assumption|reflexivity].
  - assert (Ha : inr a = insert engine (mkNode 0) (mkNode 1)) by congruence.
    vm_compute in Ha. injection Ha as ->.
    repeat split; vm_compute; reflexivity.
Qed.

End GetPathFacts.

(** * Further properties of the code *)

(** ** More on annotateMap *)

Module AnnotateMore.
Import AnnotatedMapAbstraction GroundSpec SquareSpec AnnotateFacts.

Section Loop.
Variable f : node -> Z -> node.
Variable val : Z -> Z -> Z.
Hypothesis f_set :
  forall n s, f n s = setClearance n s (val (terrainType n) s).

Lemma foldl_getNum (l : list Z) (n : node) :
  getNum (foldl f n l) = getNum n.
Proof.
  revert n. induction l as [|s l IH]; intros n; simpl; [reflexivity|].
  rewrite IH, f_set. reflexivity.
Qed.
End Loop.

Section WithTerrains.
Variables kGround kTrees : Z.
Local Abbreviation vts := (validterrains kGround kTrees).
Variable m : Map.

Lemma interior_set (a1 a2 a3 : node) :
  exists val, forall n s,
      annotate_interior a1 a2 a3 n s = setClearance n s (val (terrainType n) s).
Proof.
  exists (fun t s =>
            if Z.land s t =? t
            then Int.add
                   (let min := getClearance a1 s in
                    let min := if getClearance a2 s <? min
                               then getClearance a2 s else min in
                    if getClearance a3 s <? min
                    then getClearance a3 s else min) 1
            else 0).
  intros n s. unfold annotate_interior.
  destruct (Z.land s (terrainType n) =? terrainType n); reflexivity.
Qed.

Lemma border_set :
  exists val, forall n s,
      annotate_border n s = setClearance n s (val (terrainType n) s).
Proof.
  exists (fun t s => if Z.land s t =? t then 1 else 0).
  intros n s. unfold annotate_border.
  destruct (Z.land s (terrainType n) =? terrainType n); reflexivity.
Qed.

(** What a step keeps of the node of its tile: its id and the clearance
    values stored for other terrain combinations. *)
Lemma annotate_tile_keeps (x y : Z) (ns : gmap (Z * Z) node) (k : Z * Z) :
  match annotate_tile kGround kTrees m x y ns !! k, ns !! k with
  | Some n', Some n =>
      getNum n' = getNum n /\
      forall s, s ∉ vts -> getClearance n' s = getClearance n s
  | None, None => True
  | _, _ => False
  end.
Proof.
  destruct (decide (k = (x, y))) as [->|Hk].
  - unfold annotate_tile, getNodeFromMap at 1.
    destruct (inMap m x y); [|destruct (ns !! (x, y)); auto].
    destruct (ns !! (x, y)) as [n|] eqn:Hn; [|rewrite Hn; exact I].
    destruct (getNodeFromMap m ns (Int.add x 1) (Int.add y 1)) as [a1|],
             (getNodeFromMap m ns (Int.add x 1) y) as [a2|],
             (getNodeFromMap m ns x (Int.add y 1)) as [a3|];
      rewrite lookup_insert_eq;
      first [ destruct (interior_set a1 a2 a3) as [val Hval]
            | destruct border_set as [val Hval] ];
      (split;
       [rewrite (foldl_getNum _ val Hval); reflexivity
       |intros s Hs; rewrite (foldl_frame _ val Hval) by assumption;
        reflexivity]).
  - rewrite annotate_tile_frame by assumption.
    destruct (ns !! k); auto.
Qed.

Lemma keeps_trans (ns1 ns2 ns3 : gmap (Z * Z) node) (k : Z * Z) :
  match ns2 !! k, ns1 !! k with
  | Some n', Some n =>
      getNum n' = getNum n /\
      forall s, s ∉ vts -> getClearance n' s = getClearance n s
  | None, None => True
  | _, _ => False
  end ->
  match ns3 !! k, ns2 !! k with
  | Some n', Some n =>
      getNum n' = getNum n /\
      forall s, s ∉ vts -> getClearance n' s = getClearance n s
  | None, None => True
  | _, _ => False
  end ->
  match ns3 !! k, ns1 !! k with
  | Some n', Some n =>
      getNum n' = getNum n /\
      forall s, s ∉ vts -> getClearance n' s = getClearance n s
  | None, None => True
  | _, _ => False
  end.
Proof.
  destruct (ns1 !! k), (ns2 !! k), (ns3 !! k); try tauto.
  intros [H1 H2] [H3 H4]. split; [congruence|].
  intros s Hs. rewrite H4, H2 by assumption. reflexivity.
Qed.

Lemma annotate_column_keeps (x : Z) (h : nat) (ns : gmap (Z * Z) node)
      (k : Z * Z) :
  match annotate_column kGround kTrees m x h ns !! k, ns !! k with
  | Some n', Some n =>
      getNum n' = getNum n /\
      forall s, s ∉ vts -> getClearance n' s = getClearance n s
  | None, None => True
  | _, _ => False
  end.
Proof.
  revert ns. induction h as [|h IH]; intros ns; simpl.
  - destruct (ns !! k); auto.
  - eapply keeps_trans; [apply annotate_tile_keeps|apply IH].
Qed.

Lemma annotate_columns_keeps (w : nat) (ns : gmap (Z * Z) node)
      (k : Z * Z) :
  match annotate_columns kGround kTrees m w ns !! k, ns !! k with
  | Some n', Some n =>
      getNum n' = getNum n /\
      forall s, s ∉ vts -> getClearance n' s = getClearance n s
  | None, None => True
  | _, _ => False
  end.
Proof.
  revert ns. induction w as [|w IH]; intros ns; simpl.
  - destruct (ns !! k); auto.
  - eapply keeps_trans; [apply annotate_column_keeps|apply IH].
Qed.

(** The loops only visit tiles of the map. *)
Lemma annotate_column_outside (x : Z) (h : nat) (ns : gmap (Z * Z) node)
      (x' y' : Z) :
  x' <> x \/ y' < 0 \/ Z.of_nat h <= y' ->
  annotate_column kGround kTrees m x h ns !! (x', y') = ns !! (x', y').
Proof.
  revert ns. induction h as [|h IH]; intros ns Hk; simpl; [reflexivity|].
  rewrite IH by lia. apply annotate_tile_frame. intros [=]; lia.
Qed.

Lemma annotate_columns_outside (w : nat) (ns : gmap (Z * Z) node)
      (x' y' : Z) :
  x' < 0 \/ Z.of_nat w <= x' \/ y' < 0 \/ getMapHeight m <= y' ->
  annotate_columns kGround kTrees m w ns !! (x', y') = ns !! (x', y').
Proof.
  revert ns. induction w as [|w IH]; intros ns Hk; simpl; [reflexivity|].
  rewrite IH by lia. apply annotate_column_outside. lia.
Qed.

End WithTerrains.

(** X1: [annotateMap] creates and deletes no node and changes no edge: a
    tile has a node afterwards iff it had one, with the same id and the
    same clearance values for terrain combinations that are not
    recognised; the nodes of tiles outside the map are not touched at
    all. *)
Theorem annotateMap_keeps (kGround kTrees : Z) (m : Map) (g : graph) :
  edges (annotateMap kGround kTrees m g) = edges g
  /\ (forall k, getNum <$> nodes (annotateMap kGround kTrees m g) !! k
                = getNum <$> nodes g !! k)
  /\ (forall k n n' s,
         nodes g !! k = Some n ->
         nodes (annotateMap kGround kTrees m g) !! k = Some n' ->
         s ∉ validterrains kGround kTrees ->
         getClearance n' s = getClearance n s)
  /\ (forall x y, inMap m x y = false ->
                  nodes (annotateMap kGround kTrees m g) !! (x, y)
                  = nodes g !! (x, y)).
Proof.
  split; [reflexivity|]. split; [|split].
  - intros k. simpl.
    pose proof (annotate_columns_keeps kGround kTrees m
                  (Z.to_nat (getMapWidth m)) (nodes g) k) as H.
    destruct (annotate_columns _ _ _ _ _ !! k), (nodes g !! k);
      simpl; try tauto. f_equal. apply H.
  - intros k n n' s Hn Hn' Hs. simpl in Hn'.
    pose proof (annotate_columns_keeps kGround kTrees m
                  (Z.to_nat (getMapWidth m)) (nodes g) k) as H.
    rewrite Hn, Hn' in H. by apply H.
  - intros x y Hout. simpl. apply annotate_columns_outside.
    unfold inMap in Hout.
    destruct (Z.leb_spec 0 x), (Z.ltb_spec x (getMapWidth m)),
             (Z.leb_spec 0 y), (Z.ltb_spec y (getMapHeight m));
      simpl in Hout; try discriminate; lia.
Qed.

Section Final.
Variables kGround kTrees : Z.
Local Abbreviation vts := (validterrains kGround kTrees).
Variable m : Map.
Variable g : graph.
Hypothesis width_int : getMapWidth m <= Int.INT_MAX.
Hypothesis height_int : getMapHeight m <= Int.INT_MAX.
Local Abbreviation final := (nodes (annotateMap kGround kTrees m g)).

(** The rule holds at every tile after [annotateMap]. *)
Lemma final_annotated (x y : Z) : annotated vts m final x y.
Proof.
  intros n Hn. destruct (getNodeFromMap_inMap _ _ _ _ _ Hn) as [Hx Hy].
  revert n Hn. change (annotated vts m final x y). simpl.
  apply annotate_columns_annotated; try assumption; [|lia].
  intros x' y' Hx' n' Hn'. apply getNodeFromMap_inMap in Hn'. lia.
Qed.

Lemma final_rule (x y s : Z) (n : node) :
  getNodeFromMap m final x y = Some n -> s ∈ vts ->
  getClearance n s = clearance_rule m final x y s.
Proof. intros Hn Hs. by apply (final_annotated x y n Hn). Qed.

(** Clearance values lie between 0 and the distances to the right and to
    the lower border. *)
Lemma final_bounds (d : nat) (x y s : Z) (n : node) :
  (getMapWidth m - x) + (getMapHeight m - y) <= Z.of_nat d ->
  getNodeFromMap m final x y = Some n -> s ∈ vts ->
  0 <= getClearance n s <= Z.min (getMapWidth m - x) (getMapHeight m - y).
Proof.
  revert x y n. induction d as [|d IH]; intros x y n Hd Hn Hs;
    destruct (getNodeFromMap_inMap _ _ _ _ _ Hn) as [Hx Hy]; [lia|].
  rewrite (final_rule x y s n Hn Hs). unfold clearance_rule. cbv zeta.
  destruct (Z.land s (getTerrainType m x y) =? getTerrainType m x y); [|lia].
  destruct (getNodeFromMap m final (x + 1) y) as [e|] eqn:He; [|lia].
  destruct (getNodeFromMap m final x (y + 1)) as [s'|] eqn:Hs'; [|lia].
  destruct (getNodeFromMap m final (x + 1) (y + 1)) as [se|] eqn:Hse; [|lia].
  pose proof (IH (x + 1) y e ltac:(lia) He Hs).
  pose proof (IH x (y + 1) s' ltac:(lia) Hs' Hs).
  pose proof (IH (x + 1) (y + 1) se ltac:(lia) Hse Hs).
  lia.
Qed.

Lemma final_nonneg (x y s : Z) (n : node) :
  getNodeFromMap m final x y = Some n -> s ∈ vts -> 0 <= getClearance n s.
Proof.
  intros Hn Hs.
  apply (final_bounds
           (Z.to_nat ((getMapWidth m - x) + (getMapHeight m - y))) x y s n);
    [lia|assumption..].
Qed.

(** A larger terrain combination gives at least the same clearance. *)
Lemma final_monotone (d : nat) (x y s s' : Z) (n : node) :
  (getMapWidth m - x) + (getMapHeight m - y) <= Z.of_nat d ->
  getNodeFromMap m final x y = Some n -> s ∈ vts -> s' ∈ vts ->
  Z.land s' s = s ->
  getClearance n s <= getClearance n s'.
Proof.
  intros Hd Hn Hs Hs' Hsub. revert x y n Hd Hn.
  induction d as [|d IH]; intros x y n Hd Hn;
    destruct (getNodeFromMap_inMap _ _ _ _ _ Hn) as [Hx Hy]; [lia|].
  pose proof (final_nonneg x y s' n Hn Hs') as Hnn.
  rewrite (final_rule x y s n Hn Hs) in *.
  rewrite (final_rule x y s' n Hn Hs') in *.
  unfold clearance_rule in *. cbv zeta in *.
  destruct (Z.eqb_spec (Z.land s (getTerrainType m x y))
                       (getTerrainType m x y)) as [Ht|Ht]; [|assumption].
  assert (Ht' : Z.land s' (getTerrainType m x y) = getTerrainType m x y).
  { rewrite <- Ht at 1. rewrite Z.land_assoc, Hsub. exact Ht. }
  rewrite Ht', Z.eqb_refl in *.
  destruct (getNodeFromMap m final (x + 1) y) as [e|] eqn:He; [|lia].
  destruct (getNodeFromMap m final x (y + 1)) as [s0|] eqn:Hs0; [|lia].
  destruct (getNodeFromMap m final (x + 1) (y + 1)) as [se|] eqn:Hse; [|lia].
  pose proof (IH (x + 1) y e ltac:(lia) He).
  pose proof (IH x (y + 1) s0 ltac:(lia) Hs0).
  pose proof (IH (x + 1) (y + 1) se ltac:(lia) Hse).
  lia.
Qed.

(** A clearance of at least [k] gives a clear square of side [k]. *)
Lemma final_square_sound (k : nat) (x y s : Z) (n : node) :
  s ∈ vts -> getNodeFromMap m final x y = Some n ->
  Z.of_nat (S k) <= getClearance n s ->
  clearSquare m final s x y (Z.of_nat (S k)).
Proof.
  intros Hs. revert x y n. induction k as [|k IH]; intros x y n Hn Hc.
  - intros dx dy Hdx Hdy.
    assert (dx = 0) as -> by lia. assert (dy = 0) as -> by lia.
    rewrite !Z.add_0_r. split; [eauto|].
    rewrite (final_rule x y s n Hn Hs) in Hc. unfold clearance_rule in Hc.
    cbv zeta in Hc.
    destruct (Z.eqb_spec (Z.land s (getTerrainType m x y))
                         (getTerrainType m x y)); [assumption|lia].
  - assert (Hc' := Hc).
    rewrite (final_rule x y s n Hn Hs) in Hc. unfold clearance_rule in Hc.
    cbv zeta in Hc.
    destruct (Z.eqb_spec (Z.land s (getTerrainType m x y))
                         (getTerrainType m x y)) as [Ht|]; [|lia].
    destruct (getNodeFromMap m final (x + 1) y) as [e|] eqn:He; [|lia].
    destruct (getNodeFromMap m final x (y + 1)) as [s'|] eqn:Hs'; [|lia].
    destruct (getNodeFromMap m final (x + 1) (y + 1)) as [se|] eqn:Hse;
      [|lia].
    pose proof (IH (x + 1) y e He ltac:(lia)) as Qe.
    pose proof (IH x (y + 1) s' Hs' ltac:(lia)) as Qs.
    pose proof (IH (x + 1) (y + 1) se Hse ltac:(lia)) as Qse.
    intros dx dy Hdx Hdy.
    destruct (decide (dx = 0)) as [->|Hx0], (decide (dy = 0)) as [->|Hy0].
    + rewrite !Z.add_0_r. split; [eauto|assumption].
    + replace (y + dy) with (y + 1 + (dy - 1)) by lia. apply Qs; lia.
    + replace (x + dx) with (x + 1 + (dx - 1)) by lia. apply Qe; lia.
    + replace (x + dx) with (x + 1 + (dx - 1)) by lia.
      replace (y + dy) with (y + 1 + (dy - 1)) by lia. apply Qse; lia.
Qed.

(** A clear square of side [k] gives a clearance of at least [k]. *)
Lemma final_square_complete (k : nat) (x y s : Z) :
  s ∈ vts -> clearSquare m final s x y (Z.of_nat (S k)) ->
  exists n, getNodeFromMap m final x y = Some n /\
            Z.of_nat (S k) <= getClearance n s.
Proof.
  intros Hs. revert x y. induction k as [|k IH]; intros x y Hsq.
  - destruct (Hsq 0 0 ltac:(lia) ltac:(lia)) as [[n Hn] Ht].
    rewrite !Z.add_0_r in Hn, Ht. exists n. split; [assumption|].
    rewrite (final_rule x y s n Hn Hs). unfold clearance_rule. cbv zeta.
    rewrite Ht, Z.eqb_refl.
    destruct (getNodeFromMap m final (x + 1) y) as [e|] eqn:He; [|lia].
    destruct (getNodeFromMap m final x (y + 1)) as [s'|] eqn:Hs'; [|lia].
    destruct (getNodeFromMap m final (x + 1) (y + 1)) as [se|] eqn:Hse;
      [|lia].
    pose proof (final_nonneg _ _ s _ He Hs).
    pose proof (final_nonneg _ _ s _ Hs' Hs).
    pose proof (final_nonneg _ _ s _ Hse Hs). lia.
  - destruct (Hsq 0 0 ltac:(lia) ltac:(lia)) as [[n Hn] Ht].
    rewrite !Z.add_0_r in Hn, Ht. exists n. split; [assumption|].
    destruct (IH (x + 1) y) as (e & He & Hce).
    { intros dx dy Hdx Hdy.
      replace (x + 1 + dx) with (x + (dx + 1)) by lia. apply Hsq; lia. }
    destruct (IH x (y + 1)) as (s' & Hs' & Hcs).
    { intros dx dy Hdx Hdy.
      replace (y + 1 + dy) with (y + (dy + 1)) by lia. apply Hsq; lia. }
    destruct (IH (x + 1) (y + 1)) as (se & Hse & Hcse).
    { intros dx dy Hdx Hdy.
      replace (x + 1 + dx) with (x + (dx + 1)) by lia.
      replace (y + 1 + dy) with (y + (dy + 1)) by lia. apply Hsq; lia. }
    rewrite (final_rule x y s n Hn Hs). unfold clearance_rule. cbv zeta.
    rewrite Ht, Z.eqb_refl, He, Hs', Hse. lia.
Qed.

End Final.

Import Fixtures Fixtures.Ground.

(** X2: after [annotateMap], the clearance of a node for a recognised
    terrain combination [s] is [0] exactly when the terrain of its tile is
    not contained in [s]; otherwise it is at least 1, and in every case at
    most the distance of the tile to the right border and to the lower
    border of the map. *)
Theorem annotateMap_clearance_range (kGround kTrees : Z) (m : Map)
        (g : graph) (x y s : Z) (n : node) :
  getMapWidth m <= Int.INT_MAX -> getMapHeight m <= Int.INT_MAX ->
  getNodeFromMap m (nodes (annotateMap kGround kTrees m g)) x y = Some n ->
  s ∈ validterrains kGround kTrees ->
  (getClearance n s = 0
   <-> Z.land s (getTerrainType m x y) <> getTerrainType m x y)
  /\ 0 <= getClearance n s
     <= Z.min (getMapWidth m - x) (getMapHeight m - y).
Proof.
  intros HW HH Hn Hs. split.
  - rewrite (final_rule kGround kTrees m g HW HH x y s n Hn Hs).
    unfold clearance_rule. cbv zeta.
    destruct (Z.eqb_spec (Z.land s (getTerrainType m x y))
                         (getTerrainType m x y)) as [Ht|Ht]; [|tauto].
    split; [|contradiction]. intros H0. exfalso.
    destruct (getNodeFromMap m _ (x + 1) y) as [e|] eqn:He; [|lia].
    destruct (getNodeFromMap m _ x (y + 1)) as [s'|] eqn:Hs'; [|lia].
    destruct (getNodeFromMap m _ (x + 1) (y + 1)) as [se|] eqn:Hse; [|lia].
    pose proof (final_nonneg kGround kTrees m g HW HH _ _ s _ He Hs).
    pose proof (final_nonneg kGround kTrees m g HW HH _ _ s _ Hs' Hs).
    pose proof (final_nonneg kGround kTrees m g HW HH _ _ s _ Hse Hs). lia.
  - apply (final_bounds kGround kTrees m g HW HH
             (Z.to_nat ((getMapWidth m - x) + (getMapHeight m - y))));
      [lia|assumption..].
Qed.

(** The theorem at tile [(3,2)] of the empty 5x4 map, for ground. *)
Lemma annotateMap_clearance_range_witness :
  exists n,
    getNodeFromMap map5x4
      (nodes (annotateMap kGround kTrees map5x4 graph5x4)) 3 2 = Some n
    /\ getClearance n kGround = 2
    /\ 0 <= getClearance n kGround
       <= Z.min (getMapWidth map5x4 - 3) (getMapHeight map5x4 - 2).
Proof.
  eexists. split; [vm_compute; reflexivity|].
  split; [vm_compute; reflexivity|].
  apply (annotateMap_clearance_range kGround kTrees map5x4 graph5x4 3 2
           kGround).
  - vm_compute. discriminate.
  - vm_compute. discriminate.
  - vm_compute. reflexivity.
  - apply list_elem_of_here.
Defined.

(** X3: after [annotateMap], the clearance of the node of tile [(x,y)] for
    a recognised terrain combination [s] is at least [k >= 1] exactly when
    every tile of the square of side [k] with upper left corner [(x,y)]
    has a node and a terrain contained in [s]: the clearance is the side
    of the largest such square. *)
Theorem annotateMap_largest_square (kGround kTrees : Z) (m : Map)
        (g : graph) (x y s k : Z) (n : node) :
  getMapWidth m <= Int.INT_MAX -> getMapHeight m <= Int.INT_MAX ->
  getNodeFromMap m (nodes (annotateMap kGround kTrees m g)) x y = Some n ->
  s ∈ validterrains kGround kTrees -> 1 <= k ->
  (k <= getClearance n s
   <-> clearSquare m (nodes (annotateMap kGround kTrees m g)) s x y k).
Proof.
  intros HW HH Hn Hs Hk.
  replace k with (Z.of_nat (S (Z.to_nat (k - 1)))) by lia. split.
  - by apply (final_square_sound kGround kTrees m g HW HH).
  - intros Hsq.
    destruct (final_square_complete kGround kTrees m g HW HH _ x y s Hs Hsq)
      as (n' & Hn' & Hc).
    congruence.
Qed.

(** The theorem at tile [(0,0)] of the 5x4 map with an obstacle at [(1,1)]:
    the square of side 2 is not clear, the clearance is below 2. *)
Lemma annotateMap_largest_square_witness :
  exists n,
    getNodeFromMap map5x4'
      (nodes (annotateMap kGround kTrees map5x4' graph5x4')) 0 0 = Some n
    /\ (2 <= getClearance n kGround
        <-> clearSquare map5x4'
              (nodes (annotateMap kGround kTrees map5x4' graph5x4'))
              kGround 0 0 2)
    /\ getClearance n kGround = 1.
Proof.
  eexists. split; [vm_compute; reflexivity|]. split.
  - apply (annotateMap_largest_square kGround kTrees map5x4' graph5x4' 0 0
             kGround 2).
    + vm_compute. discriminate.
    + vm_compute. discriminate.
    + vm_compute. reflexivity.
    + apply list_elem_of_here.
    + lia.
  - vm_compute. reflexivity.
Defined.

(** X4: after [annotateMap], clearance grows with the terrain
    combination: when the recognised combination [s] is contained in the
    recognised combination [s'], every node has at least the clearance for
    [s'] that it has for [s]. *)
Theorem annotateMap_capability_monotone (kGround kTrees : Z) (m : Map)
        (g : graph) (x y s s' : Z) (n : node) :
  getMapWidth m <= Int.INT_MAX -> getMapHeight m <= Int.INT_MAX ->
  getNodeFromMap m (nodes (annotateMap kGround kTrees m g)) x y = Some n ->
  s ∈ validterrains kGround kTrees -> s' ∈ validterrains kGround kTrees ->
  Z.land s' s = s ->
  getClearance n s <= getClearance n s'.
Proof.
  intros HW HH Hn Hs Hs' Hsub.
  apply (final_monotone kGround kTrees m g HW HH
           (Z.to_nat ((getMapWidth m - x) + (getMapHeight m - y))) x y);
    [lia|assumption..].
Qed.

(** The theorem at tile [(2,0)] of the 5x4 map with trees at [(3,0)]:
    clearance 1 for ground, 3 for ground or trees. *)
Lemma annotateMap_capability_monotone_witness :
  exists n,
    getNodeFromMap map5x4'
      (nodes (annotateMap kGround kTrees map5x4' graph5x4')) 2 0 = Some n
    /\ getClearance n kGround = 1
    /\ getClearance n (Z.lor kGround kTrees) = 3
    /\ getClearance n kGround <= getClearance n (Z.lor kGround kTrees).
Proof.
  eexists. split; [vm_compute; reflexivity|].
  split; [vm_compute; reflexivity|]. split; [vm_compute; reflexivity|].
  apply (annotateMap_capability_monotone kGround kTrees map5x4' graph5x4'
           2 0 kGround (Z.lor kGround kTrees)).
  - vm_compute. discriminate.
  - vm_compute. discriminate.
  - vm_compute. reflexivity.
  - apply list_elem_of_here.
  - apply list_elem_of_further, list_elem_of_further, list_elem_of_here.
  - vm_compute. reflexivity.
Defined.

End AnnotateMore.

(** ** More on addMissingEdges *)

Module MissingEdgesMore.
Import AnnotatedMapAbstraction EdgeSpec AnnotateFacts Fixtures Fixtures.Ground.

Lemma elem_of_upto (n x : Z) : x ∈ upto n <-> 0 <= x < n.
Proof.
  unfold upto. rewrite list_elem_of_fmap. split.
  - intros (k & -> & Hk). apply elem_of_seq in Hk. lia.
  - intros Hx. exists (Z.to_nat x). split; [lia|]. apply elem_of_seq. lia.
Qed.

Section Loops.
Context {A B : Type}.
Variable R : A -> A -> Prop.
Hypothesis R_refl : forall a, R a a.
Hypothesis R_trans : forall a b c, R a b -> R b c -> R a c.
Variable f : A -> B -> A.
Variable Q : B -> A -> Prop.
Hypothesis f_R : forall a b, R a (f a b).
Hypothesis f_Q : forall a b, Q b (f a b).
Hypothesis Q_R : forall a a' b, R a a' -> Q b a -> Q b a'.

(** A loop whose every iteration extends the state, and establishes a
    property that extensions keep, establishes it for all iterations. *)
Lemma foldl_establish (l : list B) (a : A) :
  R a (foldl f a l) /\ forall b, b ∈ l -> Q b (foldl f a l).
Proof.
  revert a. induction l as [|b l IH]; intros a; simpl.
  - split; [apply R_refl|]. intros b Hb. inversion Hb.
  - destruct (IH (f a b)) as [HR HQ]. split; [eauto|].
    intros b' Hb'. apply elem_of_cons in Hb' as [->|Hb']; [|auto].
    eapply Q_R; [exact HR|apply f_Q].
Qed.

End Loops.

Lemma foldl_fixed {A B : Type} (f : A -> B -> A) (l : list B) (a : A) :
  (forall b, b ∈ l -> f a b = a) -> foldl f a l = a.
Proof.
  induction l as [|b l IH]; intros H; simpl; [reflexivity|].
  rewrite (H b) by apply list_elem_of_here.
  apply IH. intros b' Hb'. apply H. by apply list_elem_of_further.
Qed.

Lemma find_app_Some {A : Type} (p : A -> bool) (l l' : list A) (a : A) :
  List.find p l = Some a -> List.find p (l ++ l') = Some a.
Proof.
  induction l as [|b l IH]; simpl; [discriminate|].
  destruct (p b); auto.
Qed.

Lemma find_app_None {A : Type} (p : A -> bool) (l l' : list A) :
  List.find p (l ++ l') = None -> List.find p l = None.
Proof.
  induction l as [|b l IH]; simpl; [reflexivity|].
  destruct (p b); [discriminate|auto].
Qed.

Lemma joins_sym (a b : Z) (e : edge) : joins a b e = joins b a e.
Proof. unfold joins. apply orb_comm. Qed.

Lemma findEdge_joins (g : graph) (a b : Z) :
  findEdge g a b = List.find (joins a b) (edges g).
Proof. reflexivity. Qed.

Lemma findEdge_sym (g : graph) (a b : Z) :
  findEdge g a b = findEdge g b a.
Proof.
  rewrite !findEdge_joins. induction (edges g) as [|e l IH]; simpl;
    [reflexivity|].
  rewrite (joins_sym a b), IH. reflexivity.
Qed.

Lemma fresh_app (old l l' : list edge) :
  fresh old l -> fresh (old ++ l) l' -> fresh old (l ++ l').
Proof.
  revert old. induction l as [|e l IH]; intros old Hl Hl'; simpl in *.
  - by rewrite app_nil_r in Hl'.
  - destruct Hl as [He Hl]. split; [assumption|].
    apply IH; [assumption|]. by rewrite <- app_assoc.
Qed.

Section WithMap.
Variable m : Map.

Lemma extends_refl (g : graph) : extends m g g.
Proof.
  split; [reflexivity|]. exists []. rewrite app_nil_r.
  split; [reflexivity|]. split; [constructor|exact I].
Qed.

Lemma extends_trans (g g' g'' : graph) :
  extends m g g' -> extends m g' g'' -> extends m g g''.
Proof.
  intros [Hn (l & Hl & Hc & Hf)] [Hn' (l' & Hl' & Hc' & Hf')].
  split; [congruence|]. exists (l ++ l'). split; [|split].
  - rewrite Hl', Hl, app_assoc. reflexivity.
  - apply Forall_app. split; [assumption|]. by rewrite <- Hn.
  - apply fresh_app; [assumption|]. by rewrite <- Hl.
Qed.

Lemma extends_findEdge (g g' : graph) (a b : Z) (e : edge) :
  extends m g g' -> findEdge g a b = Some e -> findEdge g' a b = Some e.
Proof.
  intros [_ (l & Hl & _)]. rewrite !findEdge_joins, Hl.
  apply find_app_Some.
Qed.

Lemma complete_extends (g g' : graph) (x y : Z) :
  extends m g g' -> complete m x y g -> complete m x y g'.
Proof.
  intros Hext Hc n nb Hn Hnb. rewrite (ext_nodes _ _ _ Hext) in Hn, Hnb.
  destruct (Hc n nb Hn Hnb) as [e He]. exists e.
  by apply (extends_findEdge g g').
Qed.

(** The loop over [neighbours] for the node [n] of tile [(x,y)]. *)
Lemma neighbours_loop (x y : Z) (n : node) (nbs : list (option node))
      (g : graph) :
  getNodeFromMap m (nodes g) x y = Some n ->
  (forall nb, Some nb ∈ nbs -> Some nb ∈ neighbours m (nodes g) x y) ->
  let g' := foldl (fun g nb =>
                     match nb with
                     | Some nb =>
                         match findEdge g (getNum n) (getNum nb) with
                         | None => addEdge g (mkEdge (getNum n) (getNum nb) 1%R)
                         | Some _ => g
                         end
                     | None => g
                     end) g nbs in
  extends m g g'
  /\ forall nb, Some nb ∈ nbs -> is_Some (findEdge g' (getNum n) (getNum nb)).
Proof.
  revert g. induction nbs as [|nbo nbs IH]; intros g Hn Hsub; simpl.
  - split; [apply extends_refl|]. intros nb Hnb. inversion Hnb.
  - set (g1 := match nbo with
               | Some nb =>
                   match findEdge g (getNum n) (getNum nb) with
                   | None => addEdge g (mkEdge (getNum n) (getNum nb) 1%R)
                   | Some _ => g
                   end
               | None => g
               end).
    assert (H1 : extends m g g1
                 /\ forall nb, nbo = Some nb ->
                               is_Some (findEdge g1 (getNum n) (getNum nb))).
    { subst g1. destruct nbo as [nb|]; [|split; [apply extends_refl|]];
        [|intros ? [=]].
      destruct (findEdge g (getNum n) (getNum nb)) as [e|] eqn:He.
      - split; [apply extends_refl|]. intros ? [= <-]. eauto.
      - split.
        + split; [reflexivity|].
          exists [mkEdge (getNum n) (getNum nb) 1%R]. split; [reflexivity|].
          split.
          * constructor; [|constructor]. exists x, y, n, nb.
            split; [assumption|]. split; [|reflexivity].
            apply Hsub, list_elem_of_here.
          * simpl. split; [exact He|exact I].
        + intros ? [= <-]. rewrite findEdge_joins. simpl.
          rewrite findEdge_joins in He.
          induction (edges g) as [|e' l IHl]; simpl in *.
          * unfold joins. simpl. rewrite !Z.eqb_refl. simpl. eauto.
          * destruct (joins (getNum n) (getNum nb) e'); [discriminate|auto]. }
    destruct H1 as [Hext1 Hhead].
    destruct (IH g1) as [Hext Hall].
    { by rewrite (ext_nodes _ _ _ Hext1). }
    { intros nb Hnb. rewrite (ext_nodes _ _ _ Hext1).
      by apply Hsub, list_elem_of_further. }
    split; [by apply (extends_trans g g1)|].
    intros nb Hnb. apply elem_of_cons in Hnb as [Hnb|Hnb]; [|auto].
    destruct (Hhead nb (eq_sym Hnb)) as [e He]. exists e.
    eapply extends_findEdge; [exact Hext|exact He].
Qed.

Lemma tile_extends (x y : Z) (g : graph) :
  extends m g (addMissingEdges_tile m x y g).
Proof.
  unfold addMissingEdges_tile.
  destruct (getNodeFromMap m (nodes g) x y) as [n|] eqn:Hn;
    [|apply extends_refl].
  apply (neighbours_loop x y n (neighbours m (nodes g) x y) g Hn). auto.
Qed.

Lemma tile_complete (x y : Z) (g : graph) :
  complete m x y (addMissingEdges_tile m x y g).
Proof.
  intros n nb Hn Hnb.
  rewrite (ext_nodes _ _ _ (tile_extends x y g)) in Hn, Hnb.
  unfold addMissingEdges_tile. rewrite Hn.
  by apply (neighbours_loop x y n (neighbours m (nodes g) x y) g Hn).
Qed.

Lemma column_loop (x : Z) (ys : list Z) (g : graph) :
  let g' := foldl (fun g y => addMissingEdges_tile m x y g) g ys in
  extends m g g' /\ forall y, y ∈ ys -> complete m x y g'.
Proof.
  apply (foldl_establish (extends m) extends_refl extends_trans
           (fun g y => addMissingEdges_tile m x y g)
           (fun y g => complete m x y g)).
  - intros a b. apply tile_extends.
  - intros a b. apply tile_complete.
  - intros a a' b. apply complete_extends.
Qed.

Lemma addMissingEdges_loops (g : graph) :
  extends m g (addMissingEdges m g)
  /\ forall x y, 0 <= x < getMapWidth m -> 0 <= y < getMapHeight m ->
                 complete m x y (addMissingEdges m g).
Proof.
  unfold addMissingEdges.
  destruct (foldl_establish (extends m) extends_refl extends_trans
              (fun g x => foldl (fun g y => addMissingEdges_tile m x y g) g
                                (upto (getMapHeight m)))
              (fun x g => forall y, y ∈ upto (getMapHeight m) ->
                                    complete m x y g))
    with (l := upto (getMapWidth m)) (a := g) as [Hext Hall].
  - intros a b. apply column_loop.
  - intros a b. apply column_loop.
  - intros a a' b Hext Hc y Hy. eapply complete_extends; eauto.
  - split; [exact Hext|]. intros x y Hx Hy.
    apply Hall; by apply elem_of_upto.
Qed.

(** On a graph in which the tile is complete, the tile's iteration changes
    nothing. *)
Lemma tile_fixed (x y : Z) (g : graph) :
  complete m x y g -> addMissingEdges_tile m x y g = g.
Proof.
  intros Hc. unfold addMissingEdges_tile.
  destruct (getNodeFromMap m (nodes g) x y) as [n|] eqn:Hn; [|reflexivity].
  apply foldl_fixed. intros [nb|] Hnb; [|reflexivity].
  destruct (Hc n nb Hn Hnb) as [e ->]. reflexivity.
Qed.

Lemma loops_fixed (g : graph) :
  (forall x y, 0 <= x < getMapWidth m -> 0 <= y < getMapHeight m ->
               complete m x y g) ->
  addMissingEdges m g = g.
Proof.
  intros Hc. unfold addMissingEdges. apply foldl_fixed. intros x Hx.
  apply foldl_fixed. intros y Hy. apply tile_fixed.
  apply Hc; by apply elem_of_upto.
Qed.

Hypothesis width_int : getMapWidth m <= Int.INT_MAX.
Hypothesis height_int : getMapHeight m <= Int.INT_MAX.

(** Inside the map the subtractions [x-1] and [y-1] do not wrap. *)
Lemma neighbours_inMap (ns : gmap (Z * Z) node) (x y : Z) (n : node) :
  getNodeFromMap m ns x y = Some n ->
  neighbours m ns x y
  = [getNodeFromMap m ns (x - 1) y; getNodeFromMap m ns x (y - 1);
     getNodeFromMap m ns (x - 1) (y - 1)].
Proof.
  intros Hn. apply getNodeFromMap_inMap in Hn as [Hx Hy].
  unfold neighbours, Int.sub.
  rewrite !wrap_small by (unfold Int.INT_MAX in *; lia). reflexivity.
Qed.

(** The node of a tile is joined to its western, northern and
    north-western neighbours by the end of the loops. *)
Lemma loops_connect (g : graph) (x y dx dy : Z) (n nb : node) :
  (dx, dy) ∈ [(1, 0); (0, 1); (1, 1)] ->
  getNodeFromMap m (nodes g) x y = Some n ->
  getNodeFromMap m (nodes g) (x - dx) (y - dy) = Some nb ->
  is_Some (findEdge (addMissingEdges m g) (getNum n) (getNum nb)).
Proof.
  intros Hd Hn Hnb.
  destruct (addMissingEdges_loops g) as [Hext Hall].
  destruct (getNodeFromMap_inMap _ _ _ _ _ Hn) as [Hx Hy].
  apply (Hall x y Hx Hy); rewrite (ext_nodes _ _ _ Hext); [assumption|].
  rewrite (neighbours_inMap _ _ _ _ Hn).
  apply elem_of_cons in Hd as [[= -> ->]|Hd];
    [|apply elem_of_cons in Hd as [[= -> ->]|Hd];
      [|apply list_elem_of_singleton in Hd as [= -> ->]]].
  - rewrite Z.sub_0_r in Hnb. rewrite <- Hnb. set_solver.
  - rewrite Z.sub_0_r in Hnb. rewrite <- Hnb. set_solver.
  - rewrite <- Hnb. set_solver.
Qed.

End WithMap.

(** X5: [addMissingEdges] leaves the nodes of the graph as they are and
    only appends edges: the edges of the input graph are a prefix of the
    edges of the result, and every [findEdge] lookup that found an edge
    before finds the same edge afterwards. *)
Theorem addMissingEdges_only_appends (m : Map) (g : graph) :
  nodes (addMissingEdges m g) = nodes g
  /\ edges g `prefix_of` edges (addMissingEdges m g)
  /\ forall a b e, findEdge g a b = Some e ->
                   findEdge (addMissingEdges m g) a b = Some e.
Proof.
  destruct (addMissingEdges_loops m g) as [Hext _].
  split; [apply (ext_nodes _ _ _ Hext)|]. split.
  - destruct (ext_edges _ _ _ Hext) as (l & Hl & _). by exists l.
  - intros a b e. by apply (extends_findEdge m).
Qed.

(** X6: on a map whose dimensions are ints, every edge of the result of
    [addMissingEdges] that is not an edge of the input graph goes from the
    node of a tile [(x,y)] to the node of its western, northern or
    north-western neighbour tile, and has weight [1.0]. *)
Theorem addMissingEdges_new_edges (m : Map) (g : graph) (e : edge) :
  getMapWidth m <= Int.INT_MAX -> getMapHeight m <= Int.INT_MAX ->
  e ∈ edges (addMissingEdges m g) ->
  e ∈ edges g
  \/ exists x y dx dy n nb,
       (dx, dy) ∈ [(1, 0); (0, 1); (1, 1)]
       /\ getNodeFromMap m (nodes g) x y = Some n
       /\ getNodeFromMap m (nodes g) (x - dx) (y - dy) = Some nb
       /\ e = mkEdge (getNum n) (getNum nb) 1%R.
Proof.
  intros HW HH He.
  destruct (addMissingEdges_loops m g) as [[_ (l & Hl & Hc & _)] _].
  rewrite Hl in He. apply elem_of_app in He as [He|He]; [by left|right].
  rewrite Forall_forall in Hc.
  destruct (Hc e He) as (x & y & n & nb & Hn & Hnb & ->).
  rewrite (neighbours_inMap m HW HH _ _ _ _ Hn) in Hnb.
  exists x, y.
  apply elem_of_cons in Hnb as [Hnb|Hnb];
    [|apply elem_of_cons in Hnb as [Hnb|Hnb];
      [|apply list_elem_of_singleton in Hnb]].
  - exists 1, 0, n, nb. rewrite Z.sub_0_r. split; [set_solver|]. auto.
  - exists 0, 1, n, nb. rewrite Z.sub_0_r. split; [set_solver|]. auto.
  - exists 1, 1, n, nb. split; [set_solver|]. auto.
Qed.

(** The theorem for the edge created between the nodes 3 and 0 of the 2x2
    map. *)
Lemma addMissingEdges_new_edges_witness :
  mkEdge 3 0 1%R ∈ edges graph2x2
  \/ exists x y dx dy n nb,
       (dx, dy) ∈ [(1, 0); (0, 1); (1, 1)]
       /\ getNodeFromMap map2x2 (nodes graph2x2) x y = Some n
       /\ getNodeFromMap map2x2 (nodes graph2x2) (x - dx) (y - dy) = Some nb
       /\ mkEdge 3 0 1%R = mkEdge (getNum n) (getNum nb) 1%R.
Proof.
  apply (addMissingEdges_new_edges map2x2 graph2x2 (mkEdge 3 0 1%R)).
  - vm_compute. discriminate.
  - vm_compute. discriminate.
  - assert (He : findEdge (addMissingEdges map2x2 graph2x2) 3 0
                 = Some (mkEdge 3 0 1%R)) by (vm_compute; reflexivity).
    rewrite findEdge_joins in He. apply find_some in He as [He _].
    by apply list_elem_of_In.
Defined.

(** X7: on a map whose dimensions are ints, after [addMissingEdges] the
    node of every tile has an edge to the node of each of its western,
    northern and north-western neighbour tiles that has one, and
    [findEdge] finds it from either end. *)
Theorem addMissingEdges_connects (m : Map) (g : graph) (x y dx dy : Z)
        (n nb : node) :
  getMapWidth m <= Int.INT_MAX -> getMapHeight m <= Int.INT_MAX ->
  (dx, dy) ∈ [(1, 0); (0, 1); (1, 1)] ->
  getNodeFromMap m (nodes g) x y = Some n ->
  getNodeFromMap m (nodes g) (x - dx) (y - dy) = Some nb ->
  is_Some (findEdge (addMissingEdges m g) (getNum n) (getNum nb))
  /\ is_Some (findEdge (addMissingEdges m g) (getNum nb) (getNum n)).
Proof.
  intros HW HH Hd Hn Hnb.
  pose proof (loops_connect m HW HH g x y dx dy n nb Hd Hn Hnb) as Hc.
  split; [assumption|]. by rewrite findEdge_sym.
Qed.

(** The theorem for the tile [(1,1)] of the 2x2 map and its northern
    neighbour, which has the other terrain. *)
Lemma addMissingEdges_connects_witness :
  is_Some (findEdge (addMissingEdges map2x2 graph2x2) 3 1)
  /\ is_Some (findEdge (addMissingEdges map2x2 graph2x2) 1 3).
Proof.
  apply (addMissingEdges_connects map2x2 graph2x2 1 1 0 1
           (mkNode 3 kTrees ∅) (mkNode 1 kGround ∅)).
  - vm_compute. discriminate.
  - vm_compute. discriminate.
  - set_solver.
  - vm_compute. reflexivity.
  - vm_compute. reflexivity.
Defined.

(** X8: [addMissingEdges] is idempotent: run on its own result it adds
    nothing. *)
Theorem addMissingEdges_idempotent (m : Map) (g : graph) :
  addMissingEdges m (addMissingEdges m g) = addMissingEdges m g.
Proof.
  apply loops_fixed. apply addMissingEdges_loops.
Qed.

Lemma fresh_split (old l l1 l2 : list edge) (e : edge) :
  fresh old l -> l = l1 ++ e :: l2 ->
  List.find (joins (getFrom e) (getTo e)) (old ++ l1) = None.
Proof.
  revert old l. induction l1 as [|e1 l1 IH]; intros old l Hf ->;
    simpl in Hf; destruct Hf as [He Hf].
  - by rewrite app_nil_r.
  - replace (old ++ e1 :: l1) with ((old ++ [e1]) ++ l1)
      by (by rewrite <- app_assoc).
    by apply (IH _ (l1 ++ e :: l2)).
Qed.

(** X9: [addMissingEdges] never creates a parallel edge: when it appends an
    edge, no edge before it in the edge list (neither of the input
    graph nor created earlier) joins the same two nodes, in either
    direction. *)
Theorem addMissingEdges_no_parallel (m : Map) (g : graph)
        (before after : list edge) (e : edge) :
  edges (addMissingEdges m g) = before ++ e :: after ->
  (length (edges g) <= length before)%nat ->
  forall e', e' ∈ before -> joins (getFrom e) (getTo e) e' = false.
Proof.
  intros Hsplit Hlen e' He'.
  destruct (addMissingEdges_loops m g) as [[_ (l & Hl & _ & Hf)] _].
  rewrite Hl in Hsplit.
  assert (Hb : before = edges g ++ drop (length (edges g)) before).
  { rewrite <- (take_drop (length (edges g)) before) at 1. f_equal.
    apply (f_equal (take (length (edges g)))) in Hsplit.
    rewrite take_app_length in Hsplit.
    rewrite take_app_le in Hsplit by lia. congruence. }
  rewrite Hb, <- app_assoc in Hsplit. apply app_inv_head in Hsplit.
  pose proof (fresh_split _ _ _ _ _ Hf Hsplit) as Hnone.
  rewrite <- Hb in Hnone.
  apply (find_none _ _ Hnone). by apply list_elem_of_In.
Qed.

(** The theorem for the edge between 3 and 0, which the code appends to
    the 2x2 graph as its fifth edge. *)
Lemma addMissingEdges_no_parallel_witness :
  exists before after,
    edges (addMissingEdges map2x2 graph2x2) = before ++ mkEdge 3 0 1%R :: after
    /\ forall e', e' ∈ before -> joins 3 0 e' = false.
Proof.
  eexists (take 4 (edges (addMissingEdges map2x2 graph2x2))), _.
  assert (Hs : edges (addMissingEdges map2x2 graph2x2)
               = take 4 (edges (addMissingEdges map2x2 graph2x2))
                 ++ mkEdge 3 0 1%R
                 :: drop 5 (edges (addMissingEdges map2x2 graph2x2)))
    by (vm_compute; reflexivity).
  split; [exact Hs|].
  apply (addMissingEdges_no_parallel map2x2 graph2x2 _ _ _ Hs).
  vm_compute. lia.
Defined.

End MissingEdgesMore.

(** ** The constructor of AnnotatedMapAbstraction *)

Module ConstructFacts.
Import AnnotatedMapAbstraction MapAbstractionObject GroundSpec EdgeSpec.
Import AnnotateFacts AnnotateMore MissingEdgesMore Fixtures Fixtures.Ground.

(** A node of the annotated graph is the annotated version of a node of
    the graph before annotation, with the same id. *)
Lemma annotated_node (kGround kTrees : Z) (m : Map) (g : graph) (x y : Z)
      (n : node) :
  getNodeFromMap m (nodes (annotateMap kGround kTrees m g)) x y = Some n ->
  exists n0, getNodeFromMap m (nodes g) x y = Some n0
             /\ getNum n = getNum n0.
Proof.
  unfold getNodeFromMap. destruct (inMap m x y); [|discriminate].
  simpl. intros Hn.
  pose proof (annotate_columns_keeps kGround kTrees m
                (Z.to_nat (getMapWidth m)) (nodes g) (x, y)) as Hk.
  rewrite Hn in Hk. destruct (nodes g !! (x, y)) as [n0|]; [|contradiction].
  exists n0. split; [reflexivity|]. apply Hk.
Qed.

(** X10: in the graph that the constructor leaves at level 0 (the map
    graph after [addMissingEdges] and then [annotateMap]) on a map whose
    dimensions are ints, the clearance of the node of every tile for
    every recognised terrain combination follows the clearance rule on
    the nodes of that same graph, and the node has an edge to the node of
    each of its western, northern and north-western neighbours that has
    one: the annotation keeps the edges and the node ids that
    [addMissingEdges] worked with. *)
Theorem construct_connected_and_annotated (kGround kTrees : Z) (m : Map)
        (mapGraph G : graph) (x y : Z) (n : node) :
  getMapWidth m <= Int.INT_MAX -> getMapHeight m <= Int.INT_MAX ->
  G ∈ abstractions (construct kGround kTrees m mapGraph) ->
  getNodeFromMap m (nodes G) x y = Some n ->
  (forall s, s ∈ validterrains kGround kTrees ->
             getClearance n s = clearance_rule m (nodes G) x y s)
  /\ (forall dx dy nb,
        (dx, dy) ∈ [(1, 0); (0, 1); (1, 1)] ->
        getNodeFromMap m (nodes G) (x - dx) (y - dy) = Some nb ->
        is_Some (findEdge G (getNum n) (getNum nb))).
Proof.
  intros HW HH HG Hn. unfold construct in HG. simpl in HG.
  apply list_elem_of_singleton in HG as ->. split.
  - intros s Hs.
    by apply (final_rule kGround kTrees m (addMissingEdges m mapGraph)
                HW HH x y s n).
  - intros dx dy nb Hd Hnb.
    destruct (annotated_node _ _ _ _ _ _ _ Hn) as (n0 & Hn0 & ->).
    destruct (annotated_node _ _ _ _ _ _ _ Hnb) as (nb0 & Hnb0 & ->).
    destruct (addMissingEdges_loops m mapGraph) as [Hext _].
    rewrite (ext_nodes _ _ _ Hext) in Hn0, Hnb0.
    exact (loops_connect m HW HH mapGraph x y dx dy n0 nb0 Hd Hn0 Hnb0).
Qed.

(** The theorem at the upper left tile [(0,0)] of the 2x2 map, which has
    no western or northern neighbour, and at tile [(1,1)], with its
    north-western neighbour. *)
Lemma construct_connected_and_annotated_witness :
  exists G n0 n,
    abstractions (construct kGround kTrees map2x2 graph2x2) = [G]
    /\ getNodeFromMap map2x2 (nodes G) 0 0 = Some n0
    /\ getNodeFromMap map2x2 (nodes G) 1 1 = Some n
    /\ getClearance n0 kGround = 1
    /\ ((forall s, s ∈ validterrains kGround kTrees ->
                   getClearance n0 s = clearance_rule map2x2 (nodes G) 0 0 s)
        /\ (forall dx dy nb,
              (dx, dy) ∈ [(1, 0); (0, 1); (1, 1)] ->
              getNodeFromMap map2x2 (nodes G) (0 - dx) (0 - dy) = Some nb ->
              is_Some (findEdge G (getNum n0) (getNum nb))))
    /\ is_Some (findEdge G (getNum n) (getNum n0)).
Proof.
  eexists _, _, _. split; [reflexivity|].
  split; [vm_compute; reflexivity|]. split; [vm_compute; reflexivity|].
  split; [vm_compute; reflexivity|]. split.
  - apply (construct_connected_and_annotated kGround kTrees map2x2 graph2x2
             _ 0 0).
    + vm_compute. discriminate.
    + vm_compute. discriminate.
    + apply list_elem_of_here.
    + vm_compute. reflexivity.
  - refine (proj2 (construct_connected_and_annotated kGround kTrees map2x2
                     graph2x2 _ 1 1 _ _ _ _ _) 1 1 _ _ _).
    + vm_compute. discriminate.
    + vm_compute. discriminate.
    + apply list_elem_of_here.
    + vm_compute. reflexivity.
    + set_solver.
    + vm_compute. reflexivity.
Defined.

End ConstructFacts.

(** ** pathable with default arguments *)

Module PathableMore.
Import AnnotatedMapAbstraction MapAbstractionObject Fixtures.

Lemma land_lor_absorb (a b : Z) : Z.land a (Z.lor a b) = a.
Proof.
  apply Z.bits_inj'. intros i Hi. rewrite Z.land_spec, Z.lor_spec.
  destruct (Z.testbit a i), (Z.testbit b i); reflexivity.
Qed.

(** Neither basic terrain contains the combination of the two. *)
Lemma basic_terrain_misses (kGround kTrees t : Z) :
  Z.land kGround kTrees = 0 -> kGround <> 0 -> kTrees <> 0 ->
  t ∈ [kGround; kTrees] ->
  (Z.land t (Z.lor kGround kTrees) =? Z.lor kGround kTrees) = false.
Proof.
  intros Hd HG HT Ht. apply Z.eqb_neq. intros Heq.
  apply elem_of_cons in Ht as [->|Ht];
    [|apply list_elem_of_singleton in Ht as ->].
  - rewrite land_lor_absorb in Heq.
    assert (H : Z.land kTrees kGround = kTrees).
    { rewrite Heq at 1. rewrite Z.lor_comm. apply land_lor_absorb. }
    rewrite Z.land_comm in H. congruence.
  - rewrite (Z.lor_comm kGround), land_lor_absorb in Heq.
    assert (H : Z.land kGround kTrees = kGround).
    { rewrite Heq at 1. rewrite Z.lor_comm. apply land_lor_absorb. }
    congruence.
Qed.

(** X11: when [kGround] and [kTrees] are two non-empty bit masks without a
    common bit, [pathable(from, to)] with its default arguments returns
    false without invoking a search as soon as the terrain type of one of
    the two nodes is [kGround] or [kTrees]: the guard asks for the whole
    combination [kGround|kTrees] to be contained in the terrain type of
    each node. *)
Theorem pathable_default_rejects_basic_terrain (kGround kTrees : Z)
        (path : Type) (aastar : node -> node -> Z -> Z -> option path)
        (from to : node) (log : list query) :
  Z.land kGround kTrees = 0 -> kGround <> 0 -> kTrees <> 0 ->
  terrainType from ∈ [kGround; kTrees]
  \/ terrainType to ∈ [kGround; kTrees] ->
  pathableDefault kGround kTrees path aastar from to log = (false, log).
Proof.
  intros Hd HG HT Ht. unfold pathableDefault, pathable.
  destruct Ht as [Ht|Ht];
    rewrite (basic_terrain_misses kGround kTrees _ Hd HG HT Ht).
  - reflexivity.
  - rewrite andb_false_r. reflexivity.
Qed.

(** The theorem for two ground nodes of clearance 1 and a search that
    always finds a path. *)
Lemma pathable_default_rejects_basic_terrain_witness :
  pathableDefault kGround kTrees unit Route.always
                  (mkNode 0 kGround {[ kGround := 1 ]})
                  (mkNode 1 kGround {[ kGround := 1 ]}) []
  = (false, []).
Proof.
  apply (pathable_default_rejects_basic_terrain kGround kTrees unit
           Route.always).
  - reflexivity.
  - discriminate.
  - discriminate.
  - left. apply list_elem_of_here.
Defined.

End PathableMore.

(** ** More on evaluate *)

Module EvaluateMore.
Import Graph Evaluate.

(** X12: [evaluate] does not depend on the order of its two nodes. *)
Theorem evaluate_symmetric (getClearance : edge -> Z -> Z) (this : search)
        (n target : option node) :
  evaluate getClearance this n target = evaluate getClearance this target n.
Proof.
  unfold evaluate. destruct n as [n|], target as [t|]; try reflexivity.
  destruct (traversing this) as [e|]; [|reflexivity].
  destruct (negb (getNum n =? getTo e) && negb (getNum n =? getFrom e)),
           (negb (getNum t =? getTo e) && negb (getNum t =? getFrom e));
    reflexivity.
Qed.

(** X13: [evaluate] is monotone in the clearance of the search: a step
    accepted for a search of some clearance is accepted for every search
    over the same edge with the same capability and a smaller or equal
    clearance. *)
Theorem evaluate_smaller_agent (getClearance : edge -> Z -> Z)
        (this this' : search) (n target : option node) :
  traversing this' = traversing this ->
  getCapability this' = getCapability this ->
  getSearchClearance this' <= getSearchClearance this ->
  evaluate getClearance this n target = true ->
  evaluate getClearance this' n target = true.
Proof.
  unfold evaluate. intros -> -> Hle.
  destruct n as [n|], target as [t|]; try discriminate.
  destruct (traversing this) as [e|]; [|discriminate].
  destruct (negb (getNum n =? getTo e) && negb (getNum n =? getFrom e));
    [discriminate|].
  destruct (negb (getNum t =? getTo e) && negb (getNum t =? getFrom e));
    [discriminate|].
  cbv zeta.
  destruct (Z.geb_spec (getClearance e (getCapability this))
                       (getSearchClearance this)); [|discriminate].
  destruct (Z.geb_spec (getClearance e (getCapability this))
                       (getSearchClearance this')); [reflexivity|lia].
Qed.

(** The theorem for an edge of clearance 2 and searches of clearance 2
    and 1. *)
Lemma evaluate_smaller_agent_witness :
  evaluate (fun _ _ => 2) (mkSearch (Some (mkEdge 0 1 0)) 1 1)
           (Some (mkNode 0)) (Some (mkNode 1)) = true.
Proof.
  apply (evaluate_smaller_agent (fun _ _ => 2)
           (mkSearch (Some (mkEdge 0 1 0)) 1 2)).
  - reflexivity.
  - reflexivity.
  - simpl. lia.
  - reflexivity.
Defined.

End EvaluateMore.

(** ** More on getPath *)

Module GetPathMore.
Import Graph AnnotatedHierarchicalAStar GetPathFacts.

Section GetPath.
Variables aca error : Type.
Variable findAnnotatedEdge : aca -> node -> node -> Z -> Z -> option edge.
Variable getPathFromCache : aca -> option edge -> option (list node).
Variables capability clearance : Z.

(** The loop only appends to [thepath], and leaves it as it is when
    [tmp] has no successor. *)
Lemma stitch_prefix (a : aca) (tmp thepath q : list node) :
  stitch aca error findAnnotatedEdge getPathFromCache capability clearance
         a thepath tmp = inr q ->
  thepath `prefix_of` q /\ ((length tmp <= 1)%nat -> q = thepath).
Proof.
  revert thepath. induction tmp as [|n tmp IH]; intros thepath; simpl.
  - intros [= <-]. split; [reflexivity|auto].
  - destruct tmp as [|n' tmp'].
    + intros [= <-]. split; [reflexivity|auto].
    + destruct (findAnnotatedEdge a n n' capability clearance) as [e|];
        [|discriminate].
      destruct (getPathFromCache a (Some e)) as [cachedpath|];
        [|discriminate].
      destruct (last thepath) as [t|]; [|discriminate].
      destruct (if negb (getFrom e =? getNum n) then rev cachedpath
                else cachedpath) as [|c cnext]; [discriminate|].
      destruct (getNum t =? getNum c); [|discriminate].
      intros Hq. apply IH in Hq as [Hq _]. split.
      * transitivity (thepath ++ cnext); [by apply prefix_app_r|exact Hq].
      * simpl. lia.
Qed.

End GetPath.

Import AnnotatedClusterAbstraction Fixtures Fixtures.Engine.


(** X15: a path returned by [getPath] starts with the cached path of the
    first edge of the abstract path, exactly as the cache stores it: the
    first segment is not turned round, whatever the direction of that
    edge, and the segments of the further edges are appended to it.  For
    an abstract path of two nodes the result is that cached path. *)
Theorem getPath_first_segment (aca error : Type)
        (insert : aca -> node -> node -> error + aca) (remove : aca -> aca)
        (kParent : aca -> node -> Z) (getNode : aca -> Z -> option node)
        (getAbstractPath :
           aca -> option node -> option node -> option (list node))
        (findAnnotatedEdge : aca -> node -> node -> Z -> Z -> option edge)
        (getPathFromCache : aca -> option edge -> option (list node))
        (capability clearance : Z) (aMap a' : aca) (from to : node)
        (p : list node) (evs : list event) :
  getPath aca error insert remove kParent getNode getAbstractPath
          findAnnotatedEdge getPathFromCache capability clearance
          aMap from to = (Returned (Some p), a', evs) ->
  exists a n0 n1 rest p0,
    insert aMap from to = inr a
    /\ getAbstractPath a (getNode a (kParent a from))
                       (getNode a (kParent a to)) = Some (n0 :: n1 :: rest)
    /\ getPathFromCache a (findAnnotatedEdge a n0 n1 capability clearance)
       = Some p0
    /\ p0 `prefix_of` p
    /\ (rest = [] -> p = p0).
Proof.
  unfold getPath.
  destruct (insert aMap from to) as [err|a]; cbv beta iota zeta;
    [intros Hr; discriminate Hr|].
  destruct (getAbstractPath a _ _) as [[|n0 [|n1 rest]]|] eqn:Hs;
    cbv beta iota zeta; try (intros Hr; discriminate Hr).
  destruct (getPathFromCache a _) as [p0|] eqn:Hc; cbv beta iota zeta;
    [|intros Hr; discriminate Hr].
  destruct (stitch _ _ _ _ _ _ _ _ _) as [o|q] eqn:Hst; cbv beta iota zeta.
  - apply stitch_abnormal in Hst as [-> | ->]; intros Hr; discriminate Hr.
  - intros [= <- _ _]. apply stitch_prefix in Hst as [Hpre Hshort].
    exists a, n0, n1, rest, p0. split; [reflexivity|].
    split; [exact Hs|]. split; [exact Hc|]. split; [exact Hpre|].
    intros ->. apply Hshort. simpl. lia.
Qed.

(** The theorem for the query from node 0 to node 1 of [corridor], whose
    abstract path leads through the abstract node 0: the path returned is
    [0; 2; 1], the cached path of the first edge is [0; 2]. *)
Lemma getPath_first_segment_witness :
  exists a n0 n1 rest p0,
    Route.insertStraight corridor (mkNode 0) (mkNode 1) = inr a
    /\ Route.viaHub a (Engine.getNode a (kParent a (mkNode 0)))
                    (Engine.getNode a (kParent a (mkNode 1)))
       = Some (n0 :: n1 :: rest)
    /\ cachedPath a (Engine.findAnnotatedEdge a n0 n1 kGround 1) = Some p0
    /\ p0 `prefix_of` [mkNode 0; mkNode 2; mkNode 1]
    /\ (rest = [] -> [mkNode 0; mkNode 2; mkNode 1] = p0).
Proof.
  destruct (getPath aca AnnotatedClusterAbstraction.error Route.insertStraight
              removeStartAndGoalNodesFromAbstractGraph kParent
              Engine.getNode Route.viaHub Engine.findAnnotatedEdge
              cachedPath kGround 1 corridor (mkNode 0) (mkNode 1))
    as [[o a'] evs] eqn:Hrun.
  assert (Ho : o = Returned (Some [mkNode 0; mkNode 2; mkNode 1])).
  { apply (f_equal (fun r => fst (fst r))) in Hrun.
    vm_compute in Hrun. congruence. }
  rewrite Ho in Hrun.
  exact (getPath_first_segment _ _ _ _ _ _ _ _ _ _ _ _ _ _ _ _ _ Hrun).
Defined.

End GetPathMore.

(** ** The number of clusters along a side *)

Module ClusterMore.
Import AnnotatedClusterAbstraction.

(** X16: for a side of length [d >= 0] and a cluster size [S > 0], the
    number of clusters that the test computes along the side is the
    smallest number of clusters of size [S] that cover it. *)
Theorem clustersAlong_ceiling (d S : Z) :
  0 <= d -> 0 < S ->
  (clustersAlong d S - 1) * S < d <= clustersAlong d S * S.
Proof.
  intros Hd HS. unfold clustersAlong.
  pose proof (Z.div_mod d S ltac:(lia)) as Hdiv.
  pose proof (Z.mod_pos_bound d S HS) as Hmod.
  destruct (Z.gtb_spec (d mod S) 0); nia.
Qed.

(** The theorem for a side of 9 tiles and clusters of size 5. *)
Lemma clustersAlong_ceiling_witness :
  clustersAlong 9 TESTCLUSTERSIZE = 2
  /\ (clustersAlong 9 TESTCLUSTERSIZE - 1) * TESTCLUSTERSIZE < 9
     <= clustersAlong 9 TESTCLUSTERSIZE * TESTCLUSTERSIZE.
Proof.
  split; [reflexivity|].
  apply (clustersAlong_ceiling 9 TESTCLUSTERSIZE).
  - lia.
  - reflexivity.
Defined.

End ClusterMore.

(** ** Running the two passes again, or in the other order *)

Module PassesFacts.
Import AnnotatedMapAbstraction GroundSpec EdgeSpec.
Import AnnotateFacts AnnotateMore MissingEdgesMore Fixtures Fixtures.Ground.

Section Loop.
Variable f : node -> Z -> node.
Variable val : Z -> Z -> Z.
Hypothesis f_set :
  forall n s, f n s = setClearance n s (val (terrainType n) s).

Lemma foldl_lookup_frame (l : list Z) (n : node) (s : Z) :
  s ∉ l -> clearances (foldl f n l) !! s = clearances n !! s.
Proof.
  revert n. induction l as [|s0 l IH]; intros n Hs; simpl; [reflexivity|].
  apply not_elem_of_cons in Hs as [Hne Hs].
  rewrite IH by assumption. rewrite f_set. simpl.
  rewrite lookup_insert_ne by congruence. reflexivity.
Qed.

Lemma foldl_lookup_present (l : list Z) (n : node) (s : Z) :
  s ∈ l -> is_Some (clearances (foldl f n l) !! s).
Proof.
  revert n. induction l as [|s0 l IH]; intros n Hs; simpl.
  - inversion Hs.
  - destruct (decide (s ∈ l)) as [Hin|Hout]; [by apply IH|].
    apply elem_of_cons in Hs as [->|Hs]; [|contradiction].
    rewrite foldl_lookup_frame by assumption. rewrite f_set. simpl.
    rewrite lookup_insert_eq. eauto.
Qed.

End Loop.

Section WithTerrains.
Variables kGround kTrees : Z.
Local Abbreviation vts := (validterrains kGround kTrees).
Variable m : Map.

(** The node of [k] has a stored clearance for every recognised terrain
    combination. *)
Local Abbreviation present ns k :=
  (forall n : node, ns !! k = Some n ->
                    forall s, s ∈ vts -> is_Some (clearances n !! s)).

(** What a step does to the stored values of the node of its tile. *)
Lemma annotate_tile_stores (x y : Z) (ns : gmap (Z * Z) node) :
  match annotate_tile kGround kTrees m x y ns !! (x, y), ns !! (x, y) with
  | Some n', Some n =>
      (forall s, s ∉ vts -> clearances n' !! s = clearances n !! s)
      /\ (inMap m x y = true ->
          forall s, s ∈ vts -> is_Some (clearances n' !! s))
  | None, None => True
  | _, _ => False
  end.
Proof.
  unfold annotate_tile, getNodeFromMap at 1.
  destruct (inMap m x y);
    [|destruct (ns !! (x, y)); [split; [reflexivity|discriminate]|exact I]].
  destruct (ns !! (x, y)) as [n|] eqn:Hn; [|rewrite Hn; exact I].
  destruct (getNodeFromMap m ns (Int.add x 1) (Int.add y 1)) as [a1|],
           (getNodeFromMap m ns (Int.add x 1) y) as [a2|],
           (getNodeFromMap m ns x (Int.add y 1)) as [a3|];
    rewrite lookup_insert_eq;
    first [ destruct (interior_set a1 a2 a3) as [val Hval]
          | destruct border_set as [val Hval] ];
    (split;
     [intros s Hs; rewrite (foldl_lookup_frame _ val Hval) by assumption;
      reflexivity
     |intros _ s Hs; by apply (foldl_lookup_present _ val Hval)]).
Qed.

Lemma annotate_tile_present (x y : Z) (ns : gmap (Z * Z) node)
      (k : Z * Z) :
  (k = (x, y) /\ inMap m x y = true) \/ present ns k ->
  present (annotate_tile kGround kTrees m x y ns) k.
Proof.
  intros H n' Hn' s Hs.
  destruct (decide (k = (x, y))) as [->|Hk].
  - pose proof (annotate_tile_stores x y ns) as Hst. rewrite Hn' in Hst.
    destruct (ns !! (x, y)) as [n|] eqn:Hn; [|contradiction].
    destruct Hst as [_ Hst].
    destruct H as [[_ Hin]|H]; [by apply Hst|].
    destruct (inMap m x y) eqn:Hin; [by apply Hst|].
    unfold annotate_tile, getNodeFromMap in Hn'. rewrite Hin in Hn'.
    rewrite Hn in Hn'. by apply (H n' Hn').
  - rewrite annotate_tile_frame in Hn' by assumption.
    destruct H as [[? _]|H]; [contradiction|]. by apply (H n').
Qed.

Lemma annotate_column_present (x : Z) (h : nat) (ns : gmap (Z * Z) node)
      (x' y' : Z) :
  (x' = x /\ 0 <= y' < Z.of_nat h /\ inMap m x' y' = true)
  \/ present ns (x', y') ->
  present (annotate_column kGround kTrees m x h ns) (x', y').
Proof.
  revert ns. induction h as [|h IH]; intros ns H; simpl.
  - destruct H as [H|H]; [lia|exact H].
  - apply IH.
    destruct (decide (x' = x /\ y' = Z.of_nat h)) as [[-> ->]|Hne].
    + destruct H as [(_ & _ & Hin)|H]; right; apply annotate_tile_present;
        auto.
    + destruct H as [(-> & Hy & Hin)|H].
      * left. split; [reflexivity|]. split; [lia|assumption].
      * right. apply annotate_tile_present. by right.
Qed.

Lemma annotate_columns_present (w : nat) (ns : gmap (Z * Z) node)
      (x' y' : Z) :
  (0 <= x' < Z.of_nat w /\ inMap m x' y' = true) \/ present ns (x', y') ->
  present (annotate_columns kGround kTrees m w ns) (x', y').
Proof.
  revert ns. induction w as [|w IH]; intros ns H; simpl.
  - destruct H as [H|H]; [lia|exact H].
  - apply IH.
    destruct (decide (x' = Z.of_nat w)) as [->|Hne].
    + right. apply annotate_column_present.
      destruct H as [[_ Hin]|H]; [left|by right].
      split; [reflexivity|]. split; [|assumption].
      unfold inMap in Hin.
      destruct (Z.leb_spec 0 y'), (Z.ltb_spec y' (getMapHeight m));
        rewrite ?andb_false_r in Hin; try discriminate; lia.
    + destruct H as [[Hx Hin]|H].
      * left. split; [lia|assumption].
      * right. apply annotate_column_present. by right.
Qed.

Hypothesis width_int : getMapWidth m <= Int.INT_MAX.
Hypothesis height_int : getMapHeight m <= Int.INT_MAX.
Variable g : graph.
Local Abbreviation final := (nodes (annotateMap kGround kTrees m g)).

Lemma final_present (x y : Z) (n : node) (s : Z) :
  getNodeFromMap m final x y = Some n -> s ∈ vts ->
  is_Some (clearances n !! s).
Proof.
  intros Hn Hs. unfold getNodeFromMap in Hn.
  destruct (inMap m x y) eqn:Hin; [|discriminate].
  apply (annotate_columns_present (Z.to_nat (getMapWidth m)) (nodes g) x y)
    with (n := n); [|assumption..].
  left. split; [|assumption]. unfold inMap in Hin.
  destruct (Z.leb_spec 0 x), (Z.ltb_spec x (getMapWidth m));
    simpl in Hin; try discriminate; lia.
Qed.

Lemma final_bounded (x y : Z) : bounded vts m final x y.
Proof.
  intros n Hn s Hs.
  pose proof (final_bounds kGround kTrees m g width_int height_int
                (Z.to_nat ((getMapWidth m - x) + (getMapHeight m - y)))
                x y s n ltac:(lia) Hn Hs). lia.
Qed.

(** On the annotated store, the step of every tile changes nothing. *)
Lemma final_tile_fixed (x y : Z) :
  annotate_tile kGround kTrees m x y final = final.
Proof.
  destruct (getNodeFromMap m final x y) as [n|] eqn:Hn;
    [|unfold annotate_tile; rewrite Hn; reflexivity].
  apply map_eq. intros k.
  destruct (decide (k = (x, y))) as [->|Hk];
    [|by apply annotate_tile_frame].
  assert (Hl : final !! (x, y) = Some n).
  { unfold getNodeFromMap in Hn. by destruct (inMap m x y). }
  assert (Hin : inMap m x y = true).
  { unfold getNodeFromMap in Hn. by destruct (inMap m x y). }
  pose proof (annotate_tile_keeps kGround kTrees m x y final (x, y)) as Hk.
  pose proof (annotate_tile_stores x y final) as Hst.
  destruct (annotate_tile_annotated kGround kTrees m width_int height_int
              x y final (final_bounded _ _) (final_bounded _ _)
              (final_bounded _ _)) as [Ha _].
  assert (Hrule : forall s,
             clearance_rule m (annotate_tile kGround kTrees m x y final) x y s
             = clearance_rule m final x y s).
  { intros s. apply clearance_rule_ext; apply annotate_tile_frame;
      intros [=]; lia. }
  specialize (Ha).
  destruct (annotate_tile kGround kTrees m x y final !! (x, y)) as [n'|]
    eqn:Hn'; rewrite Hl in Hk, Hst |- *; [|contradiction].
  destruct Hk as [Hnum _]. destruct Hst as [Hout Hpre].
  destruct (Ha n') as [Ht' Hc'].
  { unfold getNodeFromMap. rewrite Hin. exact Hn'. }
  destruct (final_annotated kGround kTrees m g width_int height_int x y n Hn)
    as [Ht Hc].
  f_equal. destruct n' as [i' t' c'], n as [i t c]. simpl in *.
  f_equal; [assumption|congruence|].
  apply map_eq. intros s. destruct (decide (s ∈ vts)) as [Hs|Hs];
    [|by apply Hout].
  destruct (Hpre Hin s Hs) as [v' Hv'].
  destruct (final_present x y _ s Hn Hs) as [v Hv]. simpl in Hv.
  specialize (Hc' s Hs). specialize (Hc s Hs). rewrite Hrule in Hc'.
  unfold getClearance in Hc', Hc. simpl in Hc', Hc.
  rewrite Hv' in Hc' |- *. rewrite Hv in Hc |- *. simpl in Hc', Hc.
  congruence.
Qed.

Lemma final_columns_fixed (w : nat) :
  annotate_columns kGround kTrees m w final = final.
Proof.
  induction w as [|w IH]; simpl; [reflexivity|].
  assert (Hcol : forall h,
             annotate_column kGround kTrees m (Z.of_nat w) h final = final).
  { induction h as [|h IHh]; simpl; [reflexivity|].
    rewrite final_tile_fixed. exact IHh. }
  rewrite Hcol. exact IH.
Qed.

End WithTerrains.

(** X17: on a map whose dimensions are ints, [annotateMap] is idempotent:
    annotating an annotated graph again leaves every node, with all its
    stored clearance values, and every edge as it is. *)
Theorem annotateMap_idempotent (kGround kTrees : Z) (m : Map) (g : graph) :
  getMapWidth m <= Int.INT_MAX -> getMapHeight m <= Int.INT_MAX ->
  annotateMap kGround kTrees m (annotateMap kGround kTrees m g)
  = annotateMap kGround kTrees m g.
Proof.
  intros HW HH. unfold annotateMap at 1.
  rewrite (final_columns_fixed kGround kTrees m HW HH g). reflexivity.
Qed.

(** The theorem on the 5x4 map with an obstacle and a tile of trees. *)
Lemma annotateMap_idempotent_witness :
  annotateMap kGround kTrees map5x4'
              (annotateMap kGround kTrees map5x4' graph5x4')
  = annotateMap kGround kTrees map5x4' graph5x4'.
Proof.
  apply (annotateMap_idempotent kGround kTrees map5x4' graph5x4').
  - vm_compute. discriminate.
  - vm_compute. discriminate.
Defined.

Section Commute.
Variable m : Map.

Lemma alike_node (g1 g2 : graph) (x y : Z) :
  alike g1 g2 ->
  getNum <$> getNodeFromMap m (nodes g1) x y
  = getNum <$> getNodeFromMap m (nodes g2) x y.
Proof.
  intros [_ H]. unfold getNodeFromMap.
  destruct (inMap m x y); [apply H|reflexivity].
Qed.

Lemma alike_neighbours_loop (nid : Z) (nbs1 nbs2 : list (option node))
      (g1 g2 : graph) :
  Forall2 (fun a b : option node => getNum <$> a = getNum <$> b) nbs1 nbs2 ->
  alike g1 g2 ->
  alike
    (foldl (fun g nb =>
              match nb with
              | Some nb =>
                  match findEdge g nid (getNum nb) with
                  | None => addEdge g (mkEdge nid (getNum nb) 1%R)
                  | Some _ => g
                  end
              | None => g
              end) g1 nbs1)
    (foldl (fun g nb =>
              match nb with
              | Some nb =>
                  match findEdge g nid (getNum nb) with
                  | None => addEdge g (mkEdge nid (getNum nb) 1%R)
                  | Some _ => g
                  end
              | None => g
              end) g2 nbs2).
Proof.
  intros Hnbs. revert g1 g2.
  induction Hnbs as [|a b nbs1 nbs2 Hab _ IH]; intros g1 g2 Hg; simpl;
    [assumption|].
  apply IH. destruct a as [a|], b as [b|]; simpl in Hab;
    try discriminate; [|assumption].
  injection Hab as ->. rewrite !findEdge_joins, (proj1 Hg).
  destruct (List.find _ (edges g2)); [assumption|].
  destruct Hg as [He Hn]. split; [|exact Hn]. simpl. by rewrite He.
Qed.

Lemma alike_tile (x y : Z) (g1 g2 : graph) :
  alike g1 g2 ->
  alike (addMissingEdges_tile m x y g1) (addMissingEdges_tile m x y g2).
Proof.
  intros Hg. unfold addMissingEdges_tile.
  pose proof (alike_node g1 g2 x y Hg) as Hn.
  destruct (getNodeFromMap m (nodes g1) x y) as [n1|],
           (getNodeFromMap m (nodes g2) x y) as [n2|];
    simpl in Hn; try discriminate; [|assumption].
  injection Hn as ->. apply alike_neighbours_loop; [|assumption].
  repeat constructor; by apply alike_node.
Qed.

Lemma foldl_alike {B : Type} (f : graph -> B -> graph) (l : list B) :
  (forall g1 g2 b, alike g1 g2 -> alike (f g1 b) (f g2 b)) ->
  forall g1 g2, alike g1 g2 -> alike (foldl f g1 l) (foldl f g2 l).
Proof.
  intros Hf. induction l as [|b l IH]; intros g1 g2 Hg; simpl; auto.
Qed.

Lemma alike_addMissingEdges (g1 g2 : graph) :
  alike g1 g2 -> alike (addMissingEdges m g1) (addMissingEdges m g2).
Proof.
  unfold addMissingEdges. apply foldl_alike. intros g1' g2' x.
  apply foldl_alike. intros g1'' g2'' y. apply alike_tile.
Qed.

End Commute.

(** X18: the two passes of the constructor commute: adding the missing
    edges to the annotated graph gives the same graph as annotating the
    graph with the missing edges added.  [addMissingEdges] reads only
    the ids of the nodes, and [annotateMap] neither reads nor writes
    edges. *)
Theorem addMissingEdges_annotateMap_commute (kGround kTrees : Z) (m : Map)
        (g : graph) :
  addMissingEdges m (annotateMap kGround kTrees m g)
  = annotateMap kGround kTrees m (addMissingEdges m g).
Proof.
  assert (Ha : alike (annotateMap kGround kTrees m g) g).
  { split; [reflexivity|]. intros k.
    pose proof (annotate_columns_keeps kGround kTrees m
                  (Z.to_nat (getMapWidth m)) (nodes g) k) as Hk.
    simpl.
    destruct (annotate_columns kGround kTrees m _ (nodes g) !! k),
             (nodes g !! k); simpl; try contradiction; [|reflexivity].
    f_equal. apply Hk. }
  apply (alike_addMissingEdges m) in Ha as [He _].
  destruct (addMissingEdges_loops m (annotateMap kGround kTrees m g))
    as [Hext1 _].
  destruct (addMissingEdges_loops m g) as [Hext2 _].
  pose proof (ext_nodes _ _ _ Hext1) as Hn1.
  pose proof (ext_nodes _ _ _ Hext2) as Hn2.
  unfold annotateMap at 2. rewrite Hn2, <- He.
  destruct (addMissingEdges m (annotateMap kGround kTrees m g)) as [ns es].
  simpl in *. by rewrite Hn1.
Qed.

End PassesFacts.

(** ** drawClearanceInfo *)

Module DrawFacts.
Import AnnotatedMapAbstraction GroundSpec Draw.
Import AnnotateFacts AnnotateMore MissingEdgesMore Fixtures Fixtures.Ground.

Lemma hexDigits_length (fuel : nat) (u : Z) :
  (1 <= length (hexDigits (S fuel) u))%nat.
Proof.
  simpl. destruct (u <? 16); simpl; [lia|]. rewrite length_app. simpl. lia.
Qed.

(** The bytes written for a value that is not negative. *)
Lemma sprintf_x_length (v : Z) :
  0 <= v <= Int.INT_MAX ->
  (v < 16 -> sprintf_x v = [hexChar v; 0])
  /\ (16 <= v -> (3 <= length (sprintf_x v))%nat).
Proof.
  intros Hv. unfold sprintf_x, toUnsigned.
  rewrite Z.mod_small by (unfold Int.INT_MAX in Hv; lia). split; intros H.
  - simpl. destruct (Z.ltb_spec v 16); [reflexivity|lia].
  - rewrite length_app, length_fmap.
    change (hexDigits 8 v)
      with (if v <? 16 then [v] else hexDigits 7 (v / 16) ++ [v mod 16]).
    destruct (Z.ltb_spec v 16); [lia|].
    rewrite length_app. pose proof (hexDigits_length 6 (v / 16)).
    simpl in *. lia.
Qed.

Lemma drawnCharacters_cases (n : node) :
  0 <= getClearance n (terrainType n) <= Int.INT_MAX ->
  (getClearance n (terrainType n) < 16 ->
   drawnCharacters n = Some (hexChar (getClearance n (terrainType n)), 0))
  /\ (16 <= getClearance n (terrainType n) -> drawnCharacters n = None).
Proof.
  intros Hv. destruct (sprintf_x_length _ Hv) as [Hs Hl].
  unfold drawnCharacters. cbv zeta. split; intros H.
  - rewrite (Hs H). reflexivity.
  - specialize (Hl H). unfold clearance_size.
    destruct (Nat.leb_spec (length (sprintf_x (getClearance n (terrainType n))))
                           2); [lia|reflexivity].
Qed.

Section Loops.
Context {D B : Type}.
Variable f : option D -> B -> option D.
Variable fails : B -> Prop.
Hypothesis f_None : forall b, f None b = None.
Hypothesis f_Some : forall d b, f (Some d) b = None <-> fails b.

(** A loop that stays failed after the first failure fails exactly when
    one of its iterations does. *)
Lemma foldl_fails (l : list B) (acc : option D) :
  foldl f acc l = None <-> acc = None \/ exists b, b ∈ l /\ fails b.
Proof.
  revert acc. induction l as [|b l IH]; intros acc; simpl.
  - split; [auto|]. intros [H|(b & Hb & _)]; [assumption|inversion Hb].
  - rewrite IH. split.
    + intros [H|(b' & Hb' & Hf)].
      * destruct acc as [d|]; [|auto]. right. exists b.
        split; [apply list_elem_of_here|]. by apply (f_Some d).
      * right. exists b'. split; [by apply list_elem_of_further|assumption].
    + intros [->|(b' & Hb' & Hf)]; [auto|].
      apply elem_of_cons in Hb' as [->|Hb'].
      * left. destruct acc as [d|]; [|apply f_None]. by apply f_Some.
      * right. eauto.
Qed.

End Loops.

(** The buffer is overrun exactly when it is overrun at some tile. *)
Lemma drawClearanceInfo_None (m : Map) (ns : gmap (Z * Z) node) :
  drawClearanceInfo m ns = None
  <-> exists i j n, getNodeFromMap m ns i j = Some n
                    /\ drawnCharacters n = None.
Proof.
  unfold drawClearanceInfo.
  pose (inner := fun (i : Z) (acc : option (list (Z * Z * (Z * Z)))) (j : Z) =>
                  match acc with
                  | None => None
                  | Some drawn =>
                      match getNodeFromMap m ns i j with
                      | None => Some drawn
                      | Some n =>
                          match drawnCharacters n with
                          | None => None
                          | Some cs => Some (drawn ++ [(i, j, cs)])
                          end
                      end
                  end).
  assert (Hinner : forall i drawn j,
             inner i (Some drawn) j = None
             <-> exists n, getNodeFromMap m ns i j = Some n
                           /\ drawnCharacters n = None).
  { intros i drawn j. unfold inner.
    destruct (getNodeFromMap m ns i j) as [n|].
    - destruct (drawnCharacters n) eqn:Hd.
      + split; [discriminate|]. intros (n' & [= <-] & Hn'). congruence.
      + split; [eauto|reflexivity].
    - split; [discriminate|]. intros (n' & Hn' & _). discriminate. }
  assert (Hcol : forall i acc,
             foldl (inner i) acc (upto (getMapHeight m)) = None
             <-> acc = None
                 \/ exists j n, getNodeFromMap m ns i j = Some n
                                /\ drawnCharacters n = None).
  { intros i acc.
    rewrite (foldl_fails (inner i)
               (fun j => exists n, getNodeFromMap m ns i j = Some n
                                   /\ drawnCharacters n = None)
               (fun _ => eq_refl) (Hinner i)).
    split.
    - intros [H|(j & _ & n & Hn)]; [auto|eauto].
    - intros [H|(j & n & Hn & Hd)]; [auto|]. right. exists j.
      split; [|eauto].
      apply elem_of_upto. apply getNodeFromMap_inMap in Hn. lia. }
  change (foldl (fun acc i => foldl (inner i) acc (upto (getMapHeight m)))
                (Some []) (upto (getMapWidth m)) = None
          <-> exists i j n, getNodeFromMap m ns i j = Some n
                            /\ drawnCharacters n = None).
  rewrite (foldl_fails
             (fun acc i => foldl (inner i) acc (upto (getMapHeight m)))
             (fun i => exists j n, getNodeFromMap m ns i j = Some n
                                   /\ drawnCharacters n = None)).
  - split.
    + intros [H|(i & _ & j & n & Hn)]; [discriminate|eauto].
    + intros (i & j & n & Hn & Hd). right. exists i. split; [|eauto].
      apply elem_of_upto. apply getNodeFromMap_inMap in Hn. lia.
  - intros i. apply Hcol. by left.
  - intros d i. rewrite Hcol. split; [intros [H|H]; [discriminate|exact H]|].
    auto.
Qed.

(** X19: on an annotated map whose width or height is at most 15, and on
    which every tile with a node has a recognised terrain combination,
    [drawClearanceInfo] never overruns the two bytes of [clearance]:
    every clearance it prints is a single hexadecimal digit. *)
Theorem drawClearanceInfo_small_maps (kGround kTrees : Z) (m : Map)
        (g : graph) :
  getMapWidth m <= Int.INT_MAX -> getMapHeight m <= Int.INT_MAX ->
  getMapWidth m <= 15 \/ getMapHeight m <= 15 ->
  (forall x y n,
      getNodeFromMap m (nodes (annotateMap kGround kTrees m g)) x y = Some n ->
      getTerrainType m x y ∈ validterrains kGround kTrees) ->
  is_Some (drawClearanceInfo m (nodes (annotateMap kGround kTrees m g))).
Proof.
  intros HW HH Hsmall Hterr.
  destruct (drawClearanceInfo m _) as [d|] eqn:Hd; [eauto|exfalso].
  apply drawClearanceInfo_None in Hd as (i & j & n & Hn & Hover).
  destruct (final_annotated kGround kTrees m g HW HH i j n Hn) as [Ht _].
  pose proof (Hterr i j n Hn) as Hs. rewrite <- Ht in Hs.
  pose proof (final_bounds kGround kTrees m g HW HH
                (Z.to_nat ((getMapWidth m - i) + (getMapHeight m - j)))
                i j _ n ltac:(lia) Hn Hs) as Hb.
  destruct (getNodeFromMap_inMap _ _ _ _ _ Hn) as [Hi Hj].
  destruct (drawnCharacters_cases n) as [Hlow _];
    [unfold Int.INT_MAX in *; lia|].
  rewrite Hlow in Hover by lia. discriminate.
Qed.

(** The theorem on the 5x4 map with an obstacle and a tile of trees. *)
Lemma drawClearanceInfo_small_maps_witness :
  is_Some (drawClearanceInfo map5x4'
             (nodes (annotateMap kGround kTrees map5x4' graph5x4'))).
Proof.
  apply (drawClearanceInfo_small_maps kGround kTrees map5x4' graph5x4').
  - vm_compute. discriminate.
  - vm_compute. discriminate.
  - left. vm_compute. discriminate.
  - intros x y n _. simpl. destruct ((x =? 3) && (y =? 0)).
    + apply list_elem_of_further, list_elem_of_here.
    + apply list_elem_of_here.
Defined.

Lemma fullSquare_spec (m : Map) (ns : gmap (Z * Z) node) (k dx dy : Z) :
  BigMap.fullSquare m ns k = true -> 0 <= dx < k -> 0 <= dy < k ->
  is_Some (getNodeFromMap m ns (0 + dx) (0 + dy)).
Proof.
  unfold BigMap.fullSquare. rewrite forallb_forall. intros H Hdx Hdy.
  rewrite !Z.add_0_l.
  assert (Hx : In dx (upto k)) by (apply list_elem_of_In, elem_of_upto; lia).
  assert (Hy : In dy (upto k)) by (apply list_elem_of_In, elem_of_upto; lia).
  specialize (H dx Hx). rewrite forallb_forall in H. specialize (H dy Hy).
  by apply bool_decide_eq_true in H.
Qed.

(** X20: on an annotated map, as soon as some tile of a recognised terrain
    is the upper left corner of a square of side 16 whose tiles all have a
    node and a terrain contained in the terrain of that tile, its
    clearance is at least 16, [sprintf] writes two hexadecimal digits and
    the terminating NUL, and [drawClearanceInfo] overruns the two bytes
    of [clearance]. *)
Theorem drawClearanceInfo_overrun (kGround kTrees : Z) (m : Map)
        (g : graph) (x y : Z) :
  getMapWidth m <= Int.INT_MAX -> getMapHeight m <= Int.INT_MAX ->
  getTerrainType m x y ∈ validterrains kGround kTrees ->
  SquareSpec.clearSquare m (nodes (annotateMap kGround kTrees m g))
                         (getTerrainType m x y) x y 16 ->
  drawClearanceInfo m (nodes (annotateMap kGround kTrees m g)) = None.
Proof.
  intros HW HH Hs Hsq. change 16 with (Z.of_nat 16) in Hsq.
  destruct (final_square_complete kGround kTrees m g HW HH 15 x y _ Hs Hsq)
    as (n & Hn & Hc).
  destruct (final_annotated kGround kTrees m g HW HH x y n Hn) as [Ht _].
  rewrite <- Ht in Hs, Hc.
  pose proof (final_bounds kGround kTrees m g HW HH
                (Z.to_nat ((getMapWidth m - x) + (getMapHeight m - y)))
                x y _ n ltac:(lia) Hn Hs) as Hb.
  destruct (getNodeFromMap_inMap _ _ _ _ _ Hn) as [Hx Hy].
  destruct (drawnCharacters_cases n) as [_ Hhigh];
    [unfold Int.INT_MAX in *; lia|].
  apply drawClearanceInfo_None. exists x, y, n. split; [assumption|].
  apply Hhigh. lia.
Qed.

(** The theorem at the upper left tile of the 16x16 map of ground. *)
Lemma drawClearanceInfo_overrun_witness :
  drawClearanceInfo BigMap.map16
    (nodes (annotateMap kGround kTrees BigMap.map16 BigMap.graph16)) = None.
Proof.
  apply (drawClearanceInfo_overrun kGround kTrees BigMap.map16
           BigMap.graph16 0 0).
  - vm_compute. discriminate.
  - vm_compute. discriminate.
  - apply list_elem_of_here.
  - intros dx dy Hdx Hdy. split; [|reflexivity].
    apply (fullSquare_spec BigMap.map16 _ 16); [vm_compute; reflexivity|lia..].
Defined.

End DrawFacts.
